(** * A propositional-logic engine and its traffic-rule catalogue

    Shallow embedding of [LogicalInference_TrafficRules_AnneMarie_(S10257168C).py]:
    the classes [Sentence], [Symbol], [Not], [And], [Implication] and
    [TrafficRules], followed by the properties of the design document.

    Python values are modelled as follows.
    - [str] is a list of Unicode code points ([N]);
    - a [dict] with string keys is a [gmap str _], a [set] of strings a [gset str];
    - a raised exception is the [Raise] branch of [result]. *)

From Stdlib Require Import ZArith NArith String Ascii.
From stdpp Require Import base list gmap.

Local Open Scope Z_scope.

(** ** Strings *)

(** A Python [str]: a sequence of code points. *)
Abbreviation str := (list N).

(** The code-point sequence of an ASCII literal. *)
Definition pystr (s : string) : str :=
  map N_of_ascii (list_ascii_of_string s).
Arguments pystr s%_string.

Definition lparen : N := 40.  (* "(" *)
Definition rparen : N := 41.  (* ")" *)
Definition not_sign : str := [172%N].            (* "¬", U+00AC *)
Definition and_sep : str := [32; 8743; 32]%N.    (* " ∧ ", U+2227 between spaces *)
Definition arrow : str := pystr " => ".

(** [str.isalpha] asks the interpreter's Unicode database whether a code
    point has a general category among Lu, Ll, Lt, Lm, Lo.  That table
    belongs to the interpreter, so the development is generic in it. *)
Class Unicode := is_letter : N → bool.

(** The table restricted to Basic Latin and Latin-1 Supplement: the letters
    below U+0100.  It serves to run the definitions on concrete strings. *)
Definition latin1_letter (c : N) : bool :=
  ((65 <=? c) && (c <=? 90) || (97 <=? c) && (c <=? 122)
   || (c =? 170) || (c =? 181) || (c =? 186)
   || (192 <=? c) && (c <=? 214) || (216 <=? c) && (c <=? 246)
   || (248 <=? c) && (c <=? 255))%N.

(** [s.isalpha()]: at least one character, and all of them letters. *)
Definition isalpha `{Unicode} (s : str) : bool :=
  negb (bool_decide (s = [])) && forallb is_letter s.

(** [sep.join(parts)] *)
Definition join (sep : str) (parts : list str) : str :=
  match parts with
  | [] => []
  | p :: ps => p ++ concat (map (λ q, sep ++ q) ps)
  end.

(** The slice [s[1:-1]]. *)
Definition slice_1_m1 (s : str) : str := removelast (tail s).

(** ** [Sentence.parenthesize] *)

(** The loop of the local function [balanced], started with [count]. *)
Fixpoint balanced_from (count : Z) (s : str) : bool :=
  match s with
  | [] => count =? 0
  | c :: s' =>
      if (c =? lparen)%N then balanced_from (count + 1) s'
      else if (c =? rparen)%N then
        if count <=? 0 then false else balanced_from (count - 1) s'
      else balanced_from count s'
  end.

Definition balanced (s : str) : bool := balanced_from 0 s.

(** [s[0] == "(" and s[-1] == ")" and balanced(s[1:-1])]; the two indexings
    are reached on a non-empty [s] only. *)
Definition fully_parenthesized (s : str) : bool :=
  bool_decide (head s = Some lparen)
  && bool_decide (last s = Some rparen)
  && balanced (slice_1_m1 s).

Definition parenthesize `{Unicode} (s : str) : str :=
  if (length s =? 0)%nat || isalpha s || fully_parenthesized s
  then s
  else [lparen] ++ s ++ [rparen].


(** ** Exceptions *)

(** The two exception classes the program raises.  [TypeError] is a
    subclass of [Exception]. *)
Inductive exn :=
| Exception (msg : str)
| TypeError (msg : str).

Inductive result (A : Type) :=
| Ok (a : A)
| Raise (e : exn).
Arguments Ok {A} a.
Arguments Raise {A} e.

#[global] Instance result_ret : MRet result := @Ok.
#[global] Instance result_bind : MBind result :=
  λ A B f r, match r with Ok a => f a | Raise e => Raise e end.

(** [isinstance(e, Exception)], the test of an [except Exception] clause. *)
Definition isinstance_Exception (e : exn) : bool :=
  match e with
  | Exception _ => true
  | TypeError _ => true
  end.

(** [all(f(x) for x in l)]: the generator is consumed up to the first
    false element. *)
Definition all_of {A} (f : A → result bool) : list A → result bool :=
  fix go l :=
    match l with
    | [] => Ok true
    | x :: l' => f x ≫= λ b : bool, if b then go l' else Ok false
    end.

(** [[f(x) for x in l]] *)
Definition comprehension {A B} (f : A → result B) : list A → result (list B) :=
  fix go l :=
    match l with
    | [] => Ok []
    | x :: l' => y ← f x; ys ← go l'; Ok (y :: ys)
    end.

(** [set.union] called with the list [sets] unpacked as its arguments: the
    unbound method takes its receiver from the first one and fails
    without any. *)
Definition set_union_star (sets : list (gset str)) : result (gset str) :=
  match sets with
  | [] => Raise (TypeError (pystr "unbound method set.union() needs an argument"))
  | s :: others => Ok (foldl (∪) s others)
  end.

(** ** Sentences *)

(** An instance of [Sentence] or of one of its four subclasses.  A direct
    instance of the base class keeps [object]'s identity-based [__eq__]
    and [__hash__], hence carries the identity of the object. *)
#[local] Unset Elimination Schemes.
Inductive Sentence :=
| BaseSentence (id : N)
| Symbol (name : str)
| Not (operand : Sentence)
| And (conjuncts : list Sentence)
| Implication (antecedent consequent : Sentence).
#[local] Set Elimination Schemes.

(** The Python values that reach the engine: constructor arguments and
    the values stored in a model. *)
Inductive pyval :=
| PNone
| PBool (b : bool)
| PInt (i : Z)
| PStr (s : str)
| PSentence (e : Sentence).

(** [bool(v)] *)
Definition truthy (v : pyval) : bool :=
  match v with
  | PNone => false
  | PBool b => b
  | PInt i => negb (i =? 0)
  | PStr s => negb (length s =? 0)%nat
  | PSentence _ => true
  end.

(** [isinstance(v, Sentence)] *)
Definition isinstance_Sentence (v : pyval) : bool :=
  match v with
  | PSentence _ => true
  | _ => false
  end.

(** [Sentence.validate]; on success the argument is known to be a sentence. *)
Definition validate (sentence : pyval) : result Sentence :=
  match sentence with
  | PSentence e => Ok e
  | _ => Raise (TypeError (pystr "must be a logical sentence"))
  end.

(** *** Constructors *)

Definition Symbol_init (name : str) : Sentence := Symbol name.

Definition Not_init (operand : pyval) : result Sentence :=
  o ← validate operand; Ok (Not o).

Definition And_init (conjuncts : list pyval) : result Sentence :=
  cs ← comprehension validate conjuncts; Ok (And cs).

(** [And.add]: the new content of [self.conjuncts]. *)
Definition And_add (self_conjuncts : list Sentence) (conjunct : pyval)
  : result (list Sentence) :=
  c ← validate conjunct; Ok (self_conjuncts ++ [c]).

Definition Implication_init (antecedent consequent : pyval) : result Sentence :=
  a ← validate antecedent; c ← validate consequent; Ok (Implication a c).

(** *** [evaluate] *)

(** The exception of [Symbol.evaluate] for a name missing from the model. *)
Definition UnboundVariable (name : str) : exn :=
  Exception (pystr "variable " ++ name ++ pystr " not in model").

Fixpoint evaluate (self : Sentence) (model : gmap str pyval) : result bool :=
  match self with
  | BaseSentence _ => Raise (Exception (pystr "nothing to evaluate"))
  | Symbol name =>
      match model !! name with
      | Some v => Ok (truthy v)
      | None => Raise (UnboundVariable name)
      end
  | Not operand => b ← evaluate operand model; Ok (negb b)
  | And conjuncts => all_of (λ conjunct, evaluate conjunct model) conjuncts
  | Implication antecedent consequent =>
      evaluate antecedent model ≫= λ a : bool,
      if negb a then Ok true else evaluate consequent model
  end.

(** *** [formula] *)

Fixpoint formula `{Unicode} (self : Sentence) : str :=
  match self with
  | BaseSentence _ => []
  | Symbol name => name
  | Not operand => not_sign ++ parenthesize (formula operand)
  | And conjuncts =>
      match conjuncts with
      | [conjunct] => formula conjunct
      | _ => join and_sep (map (λ conjunct, parenthesize (formula conjunct)) conjuncts)
      end
  | Implication antecedent consequent =>
      parenthesize (formula antecedent) ++ arrow ++ parenthesize (formula consequent)
  end.

(** *** [symbols] *)

Fixpoint symbols (self : Sentence) : result (gset str) :=
  match self with
  | BaseSentence _ => Ok ∅
  | Symbol name => Ok {[ name ]}
  | Not operand => symbols operand
  | And conjuncts => sets ← comprehension symbols conjuncts; set_union_star sets
  | Implication antecedent consequent =>
      a ← symbols antecedent; c ← symbols consequent; set_union_star [a; c]
  end.

(** *** [__eq__] and [__hash__] *)

(** [l1 == l2] on lists whose elements are compared with [eq]. *)
Definition list_eq {A} (eq : A → A → bool) : list A → list A → bool :=
  fix go l1 l2 :=
    match l1, l2 with
    | [], [] => true
    | x :: l1', y :: l2' => eq x y && go l1' l2'
    | _, _ => false
    end.

Fixpoint Sentence_eq (self other : Sentence) : bool :=
  match self, other with
  | BaseSentence i, BaseSentence j => (i =? j)%N
  | Symbol n, Symbol m => bool_decide (n = m)
  | Not o, Not p => Sentence_eq o p
  | And cs, And ds => list_eq Sentence_eq cs ds
  | Implication a c, Implication b d => Sentence_eq a b && Sentence_eq c d
  | _, _ => false
  end.

(** The interpreter's hash functions: of a string (seeded per process),
    of an integer, of a tuple given the hashes of its items, and of a plain
    object given its identity. *)
Class PyHash := {
  hash_str : str → Z;
  hash_int : Z → Z;
  hash_tuple : list Z → Z;
  hash_object : N → Z
}.

Fixpoint Sentence_hash `{PyHash} (self : Sentence) : Z :=
  match self with
  | BaseSentence i => hash_object i
  | Symbol name => hash_tuple [hash_str (pystr "symbol"); hash_str name]
  | Not operand =>
      hash_tuple [hash_str (pystr "not"); hash_int (Sentence_hash operand)]
  | And conjuncts =>
      hash_tuple [hash_str (pystr "and");
                  hash_tuple (map (λ conjunct, hash_int (Sentence_hash conjunct)) conjuncts)]
  | Implication antecedent consequent =>
      hash_tuple [hash_str (pystr "implies");
                  hash_int (Sentence_hash antecedent);
                  hash_int (Sentence_hash consequent)]
  end.

(** A hashing scheme on which [Sentence_hash] can be run: the integer hash
    of a 64-bit interpreter (reduction modulo the Mersenne prime 2^61 - 1,
    keeping the sign and avoiding -1) and polynomial hashes in place of the
    seeded string hash and of the tuple hash. *)
Definition hash_modulus : Z := 2 ^ 61 - 1.

Definition polynomial_hash (base : Z) (items : list Z) : Z :=
  foldl (λ acc x, (acc * base + x) mod hash_modulus) 0 items.

Definition sample_hash : PyHash :=
  {| hash_str s := polynomial_hash 1000003 (map Z.of_N s);
     hash_int i :=
       let h := Z.sgn i * (Z.abs i mod hash_modulus) in
       if h =? -1 then -2 else h;
     hash_tuple := polynomial_hash 31;
     hash_object := Z.of_N |}.

(** ** [TrafficRules] *)

(** The state of a [TrafficRules] object that [check_violations] reads. *)
Record TrafficRules := { rules : list (Sentence * str) }.

Definition speed_limit := Symbol (pystr "SpeedLimit").
Definition residential := Symbol (pystr "Residential").
Definition highway := Symbol (pystr "Highway").
Definition red_light := Symbol (pystr "RedLight").
Definition at_intersection := Symbol (pystr "AtIntersection").
Definition vehicle_moving := Symbol (pystr "VehicleMoving").
Definition signal_change := Symbol (pystr "SignalChange").
Definition signal_used := Symbol (pystr "SignalUsed").
Definition one_way := Symbol (pystr "OneWay").
Definition wrong_direction := Symbol (pystr "WrongDirection").
Definition stop_sign := Symbol (pystr "StopSign").
Definition complete_stop := Symbol (pystr "CompleteStop").
Definition no_parking := Symbol (pystr "NoParking").
Definition is_parked := Symbol (pystr "IsParked").
Definition no_overtaking := Symbol (pystr "NoOvertaking").
Definition is_overtaking := Symbol (pystr "IsOvertaking").
Definition location_a := Symbol (pystr "LocationA").
Definition location_b := Symbol (pystr "LocationB").

(** [_initialize_rules] *)
Definition _initialize_rules : list (Sentence * str) :=
  [ (And [speed_limit; residential], pystr "Speed violation in residential area");
    (And [speed_limit; highway], pystr "Speed violation on highway");
    (And [red_light; at_intersection; vehicle_moving], pystr "Red light violation");
    (And [signal_change; Not signal_used], pystr "Lane change violation");
    (And [one_way; wrong_direction], pystr "Wrong way violation");
    (And [stop_sign; Not complete_stop], pystr "Stop sign violation");
    (And [no_parking; is_parked], pystr "Parking violation");
    (And [no_overtaking; is_overtaking], pystr "Overtaking violation");
    (And [location_a; location_b], pystr "Location inconsistency") ].

Definition TrafficRules_init : TrafficRules := {| rules := _initialize_rules |}.

Definition key_mapping : list (str * str) :=
  [ (pystr "speed_limit", pystr "SpeedLimit");
    (pystr "residential", pystr "Residential");
    (pystr "highway", pystr "Highway");
    (pystr "red_light", pystr "RedLight");
    (pystr "at_intersection", pystr "AtIntersection");
    (pystr "vehicle_moving", pystr "VehicleMoving");
    (pystr "signal_change", pystr "SignalChange");
    (pystr "signal_used", pystr "SignalUsed");
    (pystr "one_way", pystr "OneWay");
    (pystr "wrong_direction", pystr "WrongDirection");
    (pystr "stop_sign", pystr "StopSign");
    (pystr "complete_stop", pystr "CompleteStop");
    (pystr "no_parking", pystr "NoParking");
    (pystr "is_parked", pystr "IsParked");
    (pystr "no_overtaking", pystr "NoOvertaking");
    (pystr "is_overtaking", pystr "IsOvertaking");
    (pystr "location_a", pystr "LocationA");
    (pystr "location_b", pystr "LocationB") ].

(** [key_mapping[key]] guarded by [key in key_mapping]. *)
Definition key_lookup (key : str) : option str :=
  (list_to_map key_mapping : gmap str str) !! key.

(** The dict comprehension that renames the keys of the scenario. *)
Definition build_model (scenario : gmap str pyval) : gmap str pyval :=
  foldl (λ model '(key, value),
           match key_lookup key with
           | Some name => <[name := value]> model
           | None => model
           end)
        ∅ (map_to_list scenario).

(** The loop over [self.rules], with the list [violations] built so far.
    The [except Exception] clause is the last branch. *)
Fixpoint check_rules (rs : list (Sentence * str)) (model : gmap str pyval)
    (violations : list str) : result (list str) :=
  match rs with
  | [] => Ok violations
  | (rule, violation_msg) :: rs' =>
      match evaluate rule model with
      | Ok true => check_rules rs' model (violations ++ [violation_msg])
      | Ok false => check_rules rs' model violations
      | Raise e =>
          if isinstance_Exception e then check_rules rs' model violations
          else Raise e
      end
  end.

Definition check_violations (self : TrafficRules) (scenario : gmap str pyval)
  : result (list str) :=
  check_rules (rules self) (build_model scenario) [].

(** Three of the scenarios of [main], and one that leaves variables out. *)
Definition scenario_of (active : list string) : gmap str pyval :=
  list_to_map
    (map (λ kn : str * str,
            (kn.1, PBool (bool_decide (kn.1 ∈ map pystr active))))
         key_mapping).

Definition normal_highway_driving : gmap str pyval :=
  scenario_of ["highway"; "vehicle_moving"; "signal_used"; "complete_stop";
               "location_a"]%string.

Definition speeding_in_residential_area : gmap str pyval :=
  scenario_of ["speed_limit"; "residential"; "vehicle_moving"]%string.

Definition illegal_parking_and_stop_sign : gmap str pyval :=
  scenario_of ["stop_sign"; "no_parking"; "is_parked"]%string.

Definition partial_scenario : gmap str pyval :=
  list_to_map [(pystr "speed_limit", PBool true);
               (pystr "highway", PInt 1);
               (pystr "stop_sign", PBool true)].

(** ** Notions of the design document *)

(** An expression of the data model: one of the four variants, every
    conjunction with at least one conjunct. *)
Fixpoint well_formed (e : Sentence) : bool :=
  match e with
  | BaseSentence _ => false
  | Symbol _ => true
  | Not operand => well_formed operand
  | And conjuncts =>
      negb (length conjuncts =? 0)%nat && forallb well_formed conjuncts
  | Implication antecedent consequent =>
      well_formed antecedent && well_formed consequent
  end.

(** The variable [n] is reachable in the tree of an expression. *)
Inductive occurs (n : str) : Sentence → Prop :=
| occurs_Symbol : occurs n (Symbol n)
| occurs_Not operand : occurs n operand → occurs n (Not operand)
| occurs_And conjuncts c : c ∈ conjuncts → occurs n c → occurs n (And conjuncts)
| occurs_antecedent a c : occurs n a → occurs n (Implication a c)
| occurs_consequent a c : occurs n c → occurs n (Implication a c).

(** The model gives a value to every variable of the expression. *)
Definition binds (m : gmap str pyval) (e : Sentence) : Prop :=
  ∀ n, occurs n e → is_Some (m !! n).

(** Structural equality in the words of the data model: same variant and
    recursively equal children; conjunct sequences are compared element by
    element, in order. *)
#[local] Unset Elimination Schemes.
Inductive structurally_equal : Sentence → Sentence → Prop :=
| se_Symbol n : structurally_equal (Symbol n) (Symbol n)
| se_Not o p : structurally_equal o p → structurally_equal (Not o) (Not p)
| se_And cs ds :
    Forall2 structurally_equal cs ds → structurally_equal (And cs) (And ds)
| se_Implication a b c d :
    structurally_equal a b → structurally_equal c d →
    structurally_equal (Implication a c) (Implication b d).
#[local] Set Elimination Schemes.

(** The rule label is produced: the rule evaluates, and to true. *)
Definition fires (model : gmap str pyval) (r : Sentence * str) : bool :=
  match evaluate r.1 model with
  | Ok true => true
  | _ => false
  end.

(** ** [__repr__] *)

(** The default [repr] of a plain object, which prints its identity. *)
Class ObjectRepr := object_repr : N → str.

(** [repr(self)]; [str(self)] and the replacement fields of the f-strings
    come down to it. *)
Fixpoint repr `{ObjectRepr} (self : Sentence) : str :=
  match self with
  | BaseSentence i => object_repr i
  | Symbol name => name
  | Not operand => pystr "Not(" ++ repr operand ++ pystr ")"
  | And conjuncts =>
      pystr "And(" ++ join (pystr ", ") (map repr conjuncts) ++ pystr ")"
  | Implication antecedent consequent =>
      pystr "Implication(" ++ repr antecedent ++ pystr ", "
      ++ repr consequent ++ pystr ")"
  end.

(** The hexadecimal digits of [n], most significant first. *)
Fixpoint hex_digits (fuel : nat) (n : N) (acc : str) : str :=
  match fuel with
  | O => acc
  | S fuel' =>
      let d := (n mod 16)%N in
      let c := (if d <? 10 then 48 + d else 87 + d)%N in
      if (n / 16 =? 0)%N then c :: acc else hex_digits fuel' (n / 16)%N (c :: acc)
  end.

(** The default [repr] as CPython prints it, the identity being the
    address of the object; it serves to run [repr]. *)
Definition sample_object_repr : ObjectRepr :=
  λ i, pystr "<__main__.Sentence object at 0x"
       ++ hex_digits (S (N.to_nat (N.log2 i))) i [] ++ pystr ">".

(** ** Notions used to describe the code *)

(** How often the character [c] occurs in [s]. *)
Fixpoint occurrences (c : N) (s : str) : Z :=
  match s with
  | [] => 0
  | d :: s' => (if (d =? c)%N then 1 else 0) + occurrences c s'
  end.

(** Opening minus closing parentheses. *)
Definition depth (s : str) : Z := occurrences lparen s - occurrences rparen s.

(** [s] wrapped in one pair of parentheses. *)
Definition wrapped (s : str) : str := [lparen] ++ s ++ [rparen].

(** A connective that renders with a sign of its own: a negation, an
    implication, a conjunction of two conjuncts or more. *)
Definition compound (e : Sentence) : bool :=
  match e with
  | Not _ => true
  | Implication _ _ => true
  | And conjuncts => (2 <=? length conjuncts)%nat
  | _ => false
  end.

(** Every variable name of the expression has balanced parentheses. *)
Definition balanced_names (e : Sentence) : Prop :=
  ∀ n, occurs n e → balanced n = true.

(** No conjunction without conjuncts anywhere in the expression. *)
Fixpoint no_empty_And (e : Sentence) : bool :=
  match e with
  | BaseSentence _ => true
  | Symbol _ => true
  | Not operand => no_empty_And operand
  | And conjuncts =>
      negb (length conjuncts =? 0)%nat && forallb no_empty_And conjuncts
  | Implication antecedent consequent =>
      no_empty_And antecedent && no_empty_And consequent
  end.

(** The catalogue of [_initialize_rules] read as a decision table: the
    scenario keys that must hold a true value, those that must hold a false
    value, and the label reported then. *)
Definition violation_table : list (list string * list string * string) :=
  [ (["speed_limit"; "residential"], [], "Speed violation in residential area");
    (["speed_limit"; "highway"], [], "Speed violation on highway");
    (["red_light"; "at_intersection"; "vehicle_moving"], [], "Red light violation");
    (["signal_change"], ["signal_used"], "Lane change violation");
    (["one_way"; "wrong_direction"], [], "Wrong way violation");
    (["stop_sign"], ["complete_stop"], "Stop sign violation");
    (["no_parking"; "is_parked"], [], "Parking violation");
    (["no_overtaking"; "is_overtaking"], [], "Overtaking violation");
    (["location_a"; "location_b"], [], "Location inconsistency") ]%string.

(** The truth value the scenario gives to a key, if it gives one. *)
Definition holds (scenario : gmap str pyval) (key : string) : option bool :=
  truthy <$> scenario !! pystr key.

Definition reported (scenario : gmap str pyval)
    (row : list string * list string * string) : bool :=
  forallb (λ key, bool_decide (holds scenario key = Some true)) row.1.1
  && forallb (λ key, bool_decide (holds scenario key = Some false)) row.1.2.

Definition violations_of (scenario : gmap str pyval) : list str :=
  map (λ row, pystr row.2) (List.filter (reported scenario) violation_table).

(** The scenario gives a value to every key of [key_mapping]. *)
Definition complete (scenario : gmap str pyval) : Prop :=
  ∀ key, is_Some (key_lookup key) → is_Some (scenario !! key).

(** The variable a scenario key is renamed to. *)
Definition name_of (key : string) : str := default [] (key_lookup (pystr key)).

(** The rule a row of the decision table stands for. *)
Definition rule_of (row : list string * list string * string) : Sentence * str :=
  (And (map (λ key, Symbol (name_of key)) row.1.1
        ++ map (λ key, Not (Symbol (name_of key))) row.1.2),
   pystr row.2).

(** An expression of the four variants whose variable names are all
    alphabetic. *)
Fixpoint alphabetic `{Unicode} (e : Sentence) : bool :=
  match e with
  | BaseSentence _ => false
  | Symbol name => isalpha name
  | Not operand => alphabetic operand
  | And conjuncts => forallb alphabetic conjuncts
  | Implication antecedent consequent =>
      alphabetic antecedent && alphabetic consequent
  end.

(** What may follow the [repr] of an operand: nothing, a comma or a closing
    parenthesis. *)
Definition delimited (r : str) : Prop :=
  r = [] ∨ ∃ r', r = 44%N :: r' ∨ r = rparen :: r'.

(** * Properties *)

(** ** Induction on sentences *)

Section SentenceInduction.
Variable P : Sentence → Prop.
Hypothesis HBase : ∀ i, P (BaseSentence i).
Hypothesis HSymbol : ∀ name, P (Symbol name).
Hypothesis HNot : ∀ operand, P operand → P (Not operand).
Hypothesis HAnd : ∀ conjuncts, Forall P conjuncts → P (And conjuncts).
Hypothesis HImplication :
  ∀ antecedent consequent,
    P antecedent → P consequent → P (Implication antecedent consequent).

Fixpoint Sentence_induction (e : Sentence) : P e :=
  match e with
  | BaseSentence i => HBase i
  | Symbol name => HSymbol name
  | Not operand => HNot operand (Sentence_induction operand)
  | And conjuncts =>
      HAnd conjuncts
        ((fix all cs : Forall P cs :=
            match cs with
            | [] => Forall_nil_2 P
            | c :: cs' => Forall_cons_2 P c cs' (Sentence_induction c) (all cs')
            end) conjuncts)
  | Implication antecedent consequent =>
      HImplication antecedent consequent
        (Sentence_induction antecedent) (Sentence_induction consequent)
  end.
End SentenceInduction.

(** ** The result monad and the list helpers *)

Lemma all_of_app {A} (f : A → result bool) (pre post : list A) :
  Forall (λ x, f x = Ok true) pre →
  all_of f (pre ++ post) = all_of f post.
Proof.
  induction 1 as [|x pre Hx _ IH]; [reflexivity|].
  simpl. rewrite Hx. simpl. exact IH.
Qed.

Lemma all_of_false {A} (f : A → result bool) (x : A) (post : list A) :
  f x = Ok false → all_of f (x :: post) = Ok false.
Proof. intros Hx. simpl. rewrite Hx. reflexivity. Qed.

Lemma all_of_true {A} (f : A → result bool) (l : list A) :
  all_of f l = Ok true ↔ Forall (λ x, f x = Ok true) l.
Proof.
  induction l as [|x l IH]; simpl.
  - split; [constructor | reflexivity].
  - rewrite Forall_cons. destruct (f x) as [[|]|e]; simpl.
    + rewrite IH. tauto.
    + split; [discriminate | intros [? _]; discriminate].
    + split; [discriminate | intros [? _]; discriminate].
Qed.

Lemma comprehension_Ok {A B} (f : A → result B) (l : list A) (ys : list B) :
  comprehension f l = Ok ys ↔ Forall2 (λ x y, f x = Ok y) l ys.
Proof.
  revert ys. induction l as [|x l IH]; intros ys; simpl.
  - split.
    + intros [= <-]. constructor.
    + intros Hf. inversion Hf. reflexivity.
  - destruct (f x) as [y|e] eqn:Hx; simpl.
    + destruct (comprehension f l) as [zs|e] eqn:Hl; simpl.
      * split.
        -- intros [= <-]. constructor; [exact Hx|]. apply IH. reflexivity.
        -- intros Hf. inversion Hf as [|? y' ? zs' Hy Hzs]; subst.
           apply IH in Hzs. congruence.
      * split; [discriminate|].
        intros Hf. inversion Hf as [|? y' ? zs' Hy Hzs]; subst.
        apply IH in Hzs. discriminate.
    + split; [discriminate|].
      intros Hf. inversion Hf; subst. congruence.
Qed.

Lemma comprehension_validate (cs : list Sentence) :
  comprehension validate (map PSentence cs) = Ok cs.
Proof.
  induction cs as [|c cs IH]; simpl; [reflexivity|].
  rewrite IH. reflexivity.
Qed.

Lemma elem_of_foldl_union (n : str) (s : gset str) (others : list (gset str)) :
  n ∈ foldl (∪) s others ↔ n ∈ s ∨ ∃ t, t ∈ others ∧ n ∈ t.
Proof.
  revert s. induction others as [|t others IH]; intros s; simpl.
  - split; [tauto|]. intros [?|(t & Ht & _)]; [assumption|].
    inversion Ht.
  - rewrite IH, elem_of_union. split.
    + intros [[?|?]|(u & Hu & ?)].
      * tauto.
      * right. exists t. split; [constructor | assumption].
      * right. exists u. split; [constructor; assumption | assumption].
    + intros [?|(u & Hu & ?)]; [tauto|].
      apply elem_of_cons in Hu as [->|Hu]; [tauto|].
      right. exists u. tauto.
Qed.


(** ** [parenthesize] *)

Section Parenthesize.
Context `{Unicode}.

Lemma wrap_head (s : str) : head ([lparen] ++ s ++ [rparen]) = Some lparen.
Proof. reflexivity. Qed.

Lemma wrap_last (s : str) : last ([lparen] ++ s ++ [rparen]) = Some rparen.
Proof. simpl. rewrite last_cons, last_snoc. reflexivity. Qed.

Lemma wrap_slice (s : str) : slice_1_m1 ([lparen] ++ s ++ [rparen]) = s.
Proof. unfold slice_1_m1. simpl. apply removelast_last. Qed.

Lemma wrap_fully_parenthesized (s : str) :
  fully_parenthesized ([lparen] ++ s ++ [rparen]) = balanced s.
Proof.
  unfold fully_parenthesized.
  rewrite wrap_slice, wrap_last, wrap_head.
  rewrite !bool_decide_eq_true_2 by reflexivity. reflexivity.
Qed.

Lemma isalpha_wrap (s : str) :
  s ≠ [] → isalpha s = false → isalpha ([lparen] ++ s ++ [rparen]) = false.
Proof.
  unfold isalpha. intros Hne Hs.
  rewrite bool_decide_eq_false_2 in Hs by assumption. simpl in Hs.
  rewrite bool_decide_eq_false_2 by discriminate. simpl.
  rewrite forallb_app, Hs. simpl. apply andb_false_r.
Qed.

Lemma parenthesize_cases (s : str) :
  parenthesize s = s
  ∨ (s ≠ [] ∧ isalpha s = false ∧ fully_parenthesized s = false
     ∧ parenthesize s = [lparen] ++ s ++ [rparen]).
Proof.
  unfold parenthesize.
  destruct s as [|c s]; [left; reflexivity|].
  simpl (length _ =? 0)%nat. cbv iota. simpl orb.
  destruct (isalpha (c :: s)) eqn:Ha; [left; reflexivity|].
  destruct (fully_parenthesized (c :: s)) eqn:Hf; [left; reflexivity|].
  right. repeat split; try reflexivity. discriminate.
Qed.

Lemma parenthesize_wrap (s : str) :
  s ≠ [] → isalpha s = false →
  parenthesize ([lparen] ++ s ++ [rparen])
  = if balanced s then [lparen] ++ s ++ [rparen]
    else [lparen] ++ ([lparen] ++ s ++ [rparen]) ++ [rparen].
Proof.
  intros Hne Ha. unfold parenthesize at 1.
  rewrite isalpha_wrap, wrap_fully_parenthesized by assumption.
  simpl. destruct (balanced s); reflexivity.
Qed.

(** C1 (as amended).  A second application of [parenthesize] changes
    nothing exactly when the first one left [s] alone or the parentheses
    of [s] are balanced; in particular [parenthesize] is idempotent on
    every string with balanced parentheses.  On any other string the
    second application wraps once more. *)
Theorem parenthesize_idempotent_iff (s : str) :
  (parenthesize (parenthesize s) = parenthesize s
   ↔ parenthesize s = s ∨ balanced s = true)
  ∧ (balanced s = true → parenthesize (parenthesize s) = parenthesize s).
Proof.
  assert (Hiff : parenthesize (parenthesize s) = parenthesize s
                 ↔ parenthesize s = s ∨ balanced s = true).
  { destruct (parenthesize_cases s) as [Hid | (Hne & Ha & Hf & Hw)].
    - rewrite Hid. tauto.
    - rewrite Hw, parenthesize_wrap by assumption.
      destruct (balanced s) eqn:Hb.
      + tauto.
      + split.
        * intros Heq. apply (f_equal length) in Heq.
          simpl in Heq. rewrite !length_app in Heq. simpl in Heq. lia.
        * intros [Hid | Hd]; [|discriminate].
          apply (f_equal length) in Hid.
          simpl in Hid. rewrite !length_app in Hid. simpl in Hid. lia. }
  split; [exact Hiff|]. intros Hb. apply Hiff. right. exact Hb.
Qed.
End Parenthesize.

(** The smallest string on which a second application wraps again. *)
Lemma parenthesize_twice_open_paren :
  @parenthesize latin1_letter (pystr "(") = pystr "(()"
  ∧ @parenthesize latin1_letter (pystr "(()") = pystr "((())".
Proof. split; reflexivity. Qed.

(** C1, refuted as stated: ["("] is a non-empty string on which
    [parenthesize] is not idempotent. *)
Lemma parenthesize_not_idempotent :
  pystr "(" ≠ []
  ∧ @parenthesize latin1_letter (@parenthesize latin1_letter (pystr "("))
    ≠ @parenthesize latin1_letter (pystr "(").
Proof. split; vm_compute; discriminate. Qed.

Lemma parenthesize_idempotent_iff_witness :
  @parenthesize latin1_letter (@parenthesize latin1_letter (pystr "a b"))
  = @parenthesize latin1_letter (pystr "a b").
Proof.
  apply (proj2 (@parenthesize_idempotent_iff latin1_letter (pystr "a b"))).
  reflexivity.
Defined.

(** ** [evaluate] *)

Lemma evaluate_And (cs : list Sentence) (m : gmap str pyval) :
  evaluate (And cs) m = all_of (λ c, evaluate c m) cs.
Proof. reflexivity. Qed.

Lemma well_formed_And (cs : list Sentence) :
  well_formed (And cs) = true → cs ≠ [] ∧ Forall (λ c, well_formed c = true) cs.
Proof.
  simpl. intros [Hlen Hall]%andb_prop. split.
  - intros ->. discriminate.
  - apply Forall_forall. intros c Hc.
    rewrite forallb_forall in Hall. apply Hall, list_elem_of_In, Hc.
Qed.

(** A well-formed expression evaluates to a boolean in every model that
    binds its variables. *)
Lemma evaluate_total (e : Sentence) (m : gmap str pyval) :
  well_formed e = true → binds m e → ∃ b, evaluate e m = Ok b.
Proof.
  induction e as [i|name|operand IH|conjuncts IH|a c IHa IHc]
    using Sentence_induction; intros Hwf Hb.
  - discriminate.
  - destruct (Hb name (occurs_Symbol name)) as [v Hv].
    exists (truthy v). simpl. rewrite Hv. reflexivity.
  - destruct IH as [b Hbv]; [exact Hwf | |].
    + intros n Hn. apply Hb. constructor. exact Hn.
    + exists (negb b). simpl. rewrite Hbv. reflexivity.
  - apply well_formed_And in Hwf as [_ Hwf].
    rewrite evaluate_And.
    assert (Hall : Forall (λ c, ∃ b, evaluate c m = Ok b) conjuncts).
    { apply Forall_forall. intros c Hc.
      rewrite Forall_forall in IH, Hwf.
      apply IH; [exact Hc | apply Hwf, Hc |].
      intros n Hn. apply Hb. econstructor; eassumption. }
    clear IH Hwf Hb.
    induction Hall as [|c cs [b Hc] _ IHcs]; simpl.
    + exists true. reflexivity.
    + rewrite Hc. simpl. destruct b; [exact IHcs | exists false; reflexivity].
  - simpl in Hwf. apply andb_prop in Hwf as [Hwa Hwc].
    destruct IHa as [x Hx]; [exact Hwa | |].
    { intros n Hn. apply Hb. apply occurs_antecedent. exact Hn. }
    destruct IHc as [y Hy]; [exact Hwc | |].
    { intros n Hn. apply Hb. apply occurs_consequent. exact Hn. }
    simpl. rewrite Hx. simpl. destruct x; simpl; eauto.
Qed.

(** C4.  The value of a two-element conjunction is the conjunction of the
    values of its conjuncts, whenever the model binds their variables;
    conjuncts are evaluated from the left, and after the first conjunct
    that evaluates to false the remaining ones are not evaluated: the
    result is false whatever they contain. *)
Theorem And_evaluate_short_circuit (a b : Sentence) (m : gmap str pyval) :
  evaluate (And [a; b]) m
  = (evaluate a m ≫= λ x : bool, if x then evaluate b m else Ok false)
  ∧ (well_formed a = true → well_formed b = true → binds m a → binds m b →
   ∃ x y, evaluate a m = Ok x ∧ evaluate b m = Ok y
          ∧ evaluate (And [a; b]) m = Ok (x && y))
  ∧ (∀ pre c post,
       Forall (λ p, evaluate p m = Ok true) pre →
       evaluate c m = Ok false →
       evaluate (And (pre ++ c :: post)) m = Ok false)
  ∧ (∀ e, evaluate a m = Raise e → evaluate (And [a; b]) m = Raise e).
Proof.
  split; [|split; [|split]].
  - simpl. destruct (evaluate a m) as [[|]|e]; simpl; try reflexivity.
    destruct (evaluate b m) as [[|]|e]; reflexivity.
  - intros Hwa Hwb Hba Hbb.
    destruct (evaluate_total a m Hwa Hba) as [x Hx].
    destruct (evaluate_total b m Hwb Hbb) as [y Hy].
    exists x, y. repeat split; try assumption.
    simpl. rewrite Hx. simpl. destruct x; simpl; [|reflexivity].
    rewrite Hy. simpl. destruct y; reflexivity.
  - intros pre c post Hpre Hc.
    rewrite evaluate_And, all_of_app by exact Hpre.
    apply all_of_false. exact Hc.
  - intros e He. simpl. rewrite He. reflexivity.
Qed.

Lemma binds_Symbol (m : gmap str pyval) (name : str) :
  is_Some (m !! name) → binds m (Symbol name).
Proof. intros Hs n Hn. inversion Hn; subst. exact Hs. Qed.

Lemma And_evaluate_short_circuit_witness :
  (∃ x y,
      evaluate (Symbol (pystr "A"))
        (<[pystr "A" := PBool true]> {[pystr "B" := PBool false]}) = Ok x
      ∧ evaluate (Symbol (pystr "B"))
          (<[pystr "A" := PBool true]> {[pystr "B" := PBool false]}) = Ok y
      ∧ evaluate (And [Symbol (pystr "A"); Symbol (pystr "B")])
          (<[pystr "A" := PBool true]> {[pystr "B" := PBool false]})
        = Ok (x && y))
  ∧ evaluate (And [Symbol (pystr "A"); Symbol (pystr "B")])
      {[pystr "A" := PBool false]} = Ok false.
Proof.
  split.
  - apply (proj1 (proj2 (And_evaluate_short_circuit
                           (Symbol (pystr "A")) (Symbol (pystr "B")) _))).
    + reflexivity.
    + reflexivity.
    + apply binds_Symbol. exists (PBool true). reflexivity.
    + apply binds_Symbol. exists (PBool false). reflexivity.
  - apply (proj1 (proj2 (proj2 (And_evaluate_short_circuit
                                  (Symbol (pystr "A")) (Symbol (pystr "B"))
                                  {[pystr "A" := PBool false]})))
             [] (Symbol (pystr "A")) [Symbol (pystr "B")]).
    + constructor.
    + reflexivity.
Defined.

(** C5.  An implication evaluates to false exactly when its antecedent
    evaluates to true and its consequent to false.  The antecedent is
    evaluated first: its exception is the exception of the implication,
    and when it evaluates to false the consequent is not evaluated and the
    result is true, whatever the consequent contains. *)
Theorem Implication_evaluate (a b : Sentence) (m : gmap str pyval) :
  (evaluate (Implication a b) m = Ok false
   ↔ evaluate a m = Ok true ∧ evaluate b m = Ok false)
  ∧ (evaluate a m = Ok false → evaluate (Implication a b) m = Ok true)
  ∧ (evaluate a m = Ok true → evaluate (Implication a b) m = evaluate b m)
  ∧ (∀ e, evaluate a m = Raise e → evaluate (Implication a b) m = Raise e).
Proof.
  simpl. destruct (evaluate a m) as [[|]|e]; simpl;
    (split; [|split; [|split]]); try discriminate; try reflexivity.
  - tauto.
  - split; [discriminate | intros [? _]; discriminate].
  - split; [discriminate | intros [? _]; discriminate].
  - intros e' [= ->]. reflexivity.
Qed.

Lemma Implication_evaluate_witness :
  evaluate (Implication (Symbol (pystr "A")) (Symbol (pystr "B")))
    {[pystr "A" := PBool false]} = Ok true.
Proof.
  apply (Implication_evaluate (Symbol (pystr "A")) (Symbol (pystr "B"))
           {[pystr "A" := PBool false]}).
  reflexivity.
Defined.

(** C6.  Evaluating a variable fails, with the unbound-variable exception
    carrying its name, exactly when the name is absent from the model;
    otherwise the result is the truthiness of the stored value, which may
    be any value, boolean or not. *)
Theorem Symbol_evaluate (n : str) (m : gmap str pyval) :
  (evaluate (Symbol n) m = Raise (UnboundVariable n) ↔ m !! n = None)
  ∧ (∀ e, evaluate (Symbol n) m = Raise e ↔ m !! n = None ∧ e = UnboundVariable n)
  ∧ (∀ v, m !! n = Some v → evaluate (Symbol n) m = Ok (truthy v)).
Proof.
  simpl. destruct (m !! n) as [v|]; repeat split; try discriminate;
    try congruence.
  - intros [? _]. discriminate.
  - intros [_ ->]. reflexivity.
Qed.

Lemma Symbol_evaluate_witness :
  evaluate (Symbol (pystr "X")) {[pystr "X" := PInt 3]} = Ok true
  ∧ evaluate (Symbol (pystr "X")) {[pystr "X" := PStr []]} = Ok false
  ∧ evaluate (Symbol (pystr "X")) {[pystr "Y" := PBool true]}
    = Raise (UnboundVariable (pystr "X")).
Proof.
  split; [|split].
  - apply (proj2 (proj2 (Symbol_evaluate (pystr "X") {[pystr "X" := PInt 3]}))
             (PInt 3)).
    reflexivity.
  - apply (proj2 (proj2 (Symbol_evaluate (pystr "X") {[pystr "X" := PStr []]}))
             (PStr [])).
    reflexivity.
  - apply (proj1 (Symbol_evaluate (pystr "X") {[pystr "Y" := PBool true]})).
    reflexivity.
Defined.

(** ** Construction *)

Lemma comprehension_validate_raise (args : list pyval) :
  forallb isinstance_Sentence args = false →
  comprehension validate args
  = Raise (TypeError (pystr "must be a logical sentence")).
Proof.
  induction args as [|v args IH]; [discriminate|].
  simpl. destruct v; simpl; try reflexivity.
  intros Hargs. rewrite IH by exact Hargs. reflexivity.
Qed.

Lemma forallb_isinstance_Sentence (args : list pyval) :
  forallb isinstance_Sentence args = true → ∃ cs, args = map PSentence cs.
Proof.
  induction args as [|v args IH]; simpl.
  - exists []. reflexivity.
  - destruct v; try discriminate. simpl. intros Hargs.
    destruct (IH Hargs) as [cs ->]. exists (e :: cs). reflexivity.
Qed.

(** C2, refuted as stated: the constructor called without any conjunct
    succeeds, and the value it builds has no conjunct. *)
Lemma And_init_without_conjunct :
  And_init [] = Ok (And [])
  ∧ ¬ (∀ args cs, And_init args = Ok (And cs) → (1 ≤ length cs)%nat).
Proof.
  split; [reflexivity|].
  intros Hclaim. specialize (Hclaim [] [] eq_refl). simpl in Hclaim. lia.
Qed.

(** C2 (as amended).  The constructor succeeds exactly on the argument
    lists that hold sentences only, the empty list included; the conjunct
    sequence of the value is the argument sequence, so it has as many
    conjuncts as there were arguments.  On any other argument list the
    constructor raises the [TypeError] of [validate]. *)
Theorem And_init_spec (args : list pyval) :
  (forallb isinstance_Sentence args = true →
   ∃ cs, args = map PSentence cs ∧ And_init args = Ok (And cs)
         ∧ length cs = length args)
  ∧ (forallb isinstance_Sentence args = false →
     And_init args = Raise (TypeError (pystr "must be a logical sentence"))).
Proof.
  split.
  - intros Hargs. destruct (forallb_isinstance_Sentence args Hargs) as [cs ->].
    exists cs. split; [reflexivity|]. split.
    + unfold And_init. rewrite comprehension_validate. reflexivity.
    + rewrite length_map. reflexivity.
  - intros Hargs. unfold And_init.
    rewrite comprehension_validate_raise by exact Hargs. reflexivity.
Qed.

Lemma And_init_spec_witness :
  (∃ cs, [PSentence (Symbol (pystr "A")); PSentence (Symbol (pystr "B"))]
         = map PSentence cs
         ∧ And_init [PSentence (Symbol (pystr "A")); PSentence (Symbol (pystr "B"))]
           = Ok (And cs)
         ∧ length cs = 2%nat)
  ∧ And_init [PSentence (Symbol (pystr "A")); PStr (pystr "B")]
    = Raise (TypeError (pystr "must be a logical sentence")).
Proof.
  split.
  - apply (And_init_spec
             [PSentence (Symbol (pystr "A")); PSentence (Symbol (pystr "B"))]).
    reflexivity.
  - apply (And_init_spec [PSentence (Symbol (pystr "A")); PStr (pystr "B")]).
    reflexivity.
Defined.

(** [add] validates its argument like the constructor and appends it. *)
Lemma And_add_spec (conjuncts : list Sentence) (v : pyval) :
  (∀ c, v = PSentence c → And_add conjuncts v = Ok (conjuncts ++ [c]))
  ∧ (isinstance_Sentence v = false →
     And_add conjuncts v = Raise (TypeError (pystr "must be a logical sentence"))).
Proof.
  split.
  - intros c ->. reflexivity.
  - destruct v; try reflexivity. discriminate.
Qed.

(** The other constructors validate their operands in the same way. *)
Lemma Not_init_spec (v : pyval) :
  (∀ o, v = PSentence o → Not_init v = Ok (Not o))
  ∧ (isinstance_Sentence v = false →
     Not_init v = Raise (TypeError (pystr "must be a logical sentence"))).
Proof.
  split.
  - intros o ->. reflexivity.
  - destruct v; try reflexivity. discriminate.
Qed.

Lemma Implication_init_spec (v w : pyval) :
  (∀ a c, v = PSentence a → w = PSentence c →
     Implication_init v w = Ok (Implication a c))
  ∧ (isinstance_Sentence v && isinstance_Sentence w = false →
     Implication_init v w
     = Raise (TypeError (pystr "must be a logical sentence"))).
Proof.
  split.
  - intros a c -> ->. reflexivity.
  - destruct v; try reflexivity. destruct w; try reflexivity. discriminate.
Qed.

(** C10.  The constructor accepts an empty list of conjuncts; the value it
    builds evaluates to true in every model, and [symbols] raises on it
    instead of returning a set. *)
Theorem And_empty (m : gmap str pyval) :
  And_init [] = Ok (And [])
  ∧ evaluate (And []) m = Ok true
  ∧ (∃ msg, symbols (And []) = Raise (TypeError msg))
  ∧ (∀ s, symbols (And []) ≠ Ok s).
Proof.
  split; [reflexivity|]. split; [reflexivity|]. split.
  - eexists. reflexivity.
  - intros s. discriminate.
Qed.

(** ** [formula] *)

Lemma join_singleton (sep p : str) : join sep [p] = p.
Proof. simpl. apply app_nil_r. Qed.

Lemma join_cons (sep p q : str) (ps : list str) :
  join sep (p :: q :: ps) = p ++ sep ++ join sep (q :: ps).
Proof. simpl. rewrite <- app_assoc. reflexivity. Qed.

Section Formula.
Context `{Unicode}.

(** C9.  The rendering of each variant: a variable is its name; a negation
    is the negation sign before the parenthesized operand; a conjunction
    of one conjunct is that conjunct as it stands, and a conjunction of two
    or more is its parenthesized conjuncts joined by the separator; an
    implication is its parenthesized sides around the arrow. *)
Theorem formula_spec :
  (∀ n, formula (Symbol n) = n)
  ∧ (∀ x, formula (Not x) = not_sign ++ parenthesize (formula x))
  ∧ (∀ c, formula (And [c]) = formula c)
  ∧ (∀ cs, (2 ≤ length cs)%nat →
       formula (And cs) = join and_sep (map (λ c, parenthesize (formula c)) cs))
  ∧ (∀ a b, formula (And [a; b])
            = parenthesize (formula a) ++ and_sep ++ parenthesize (formula b))
  ∧ (∀ a b, formula (Implication a b)
            = parenthesize (formula a) ++ arrow ++ parenthesize (formula b)).
Proof.
  repeat split; try reflexivity.
  - intros [|c [|d cs]] Hlen; simpl in Hlen; try lia. reflexivity.
  - intros a b. cbn [formula map]. rewrite join_cons, join_singleton. reflexivity.
Qed.
End Formula.

Lemma formula_spec_witness :
  @formula latin1_letter
    (And [Symbol (pystr "A"); Not (Symbol (pystr "B")); Symbol (pystr "C")])
  = pystr "A" ++ and_sep ++ pystr "(" ++ not_sign ++ pystr "B)"
    ++ and_sep ++ pystr "C".
Proof.
  rewrite (proj1 (proj2 (proj2 (proj2 (@formula_spec latin1_letter))))
             [Symbol (pystr "A"); Not (Symbol (pystr "B")); Symbol (pystr "C")]).
  - reflexivity.
  - simpl. lia.
Defined.

(** The renderings listed among the testable properties. *)
Example formula_variable : @formula latin1_letter (Symbol (pystr "X")) = pystr "X".
Proof. reflexivity. Qed.

Example formula_not_variable :
  @formula latin1_letter (Not (Symbol (pystr "X"))) = not_sign ++ pystr "X".
Proof. reflexivity. Qed.

Example formula_and_variables :
  @formula latin1_letter (And [Symbol (pystr "A"); Symbol (pystr "B")])
  = pystr "A" ++ and_sep ++ pystr "B".
Proof. reflexivity. Qed.

Example formula_nested :
  @formula latin1_letter
    (Implication (And [Symbol (pystr "A"); Symbol (pystr "B")])
                 (Not (Symbol (pystr "X"))))
  = pystr "(A" ++ and_sep ++ pystr "B) => (" ++ not_sign ++ pystr "X)".
Proof. reflexivity. Qed.

(** ** [__eq__] and [__hash__] *)

Lemma list_eq_true_iff {A} (eq : A → A → bool) (l1 l2 : list A) :
  Forall (λ x, ∀ y, eq x y = true ↔ x = y) l1 →
  list_eq eq l1 l2 = true ↔ l1 = l2.
Proof.
  intros Hl1. revert l2.
  induction Hl1 as [|x l1 Hx _ IH]; intros [|y l2]; simpl;
    try (split; [discriminate | discriminate]); [tauto|].
  rewrite andb_true_iff, Hx, IH. split.
  - intros [-> ->]. reflexivity.
  - intros [= -> ->]. tauto.
Qed.

(** [==] holds between two sentences exactly when they are the same tree. *)
Lemma Sentence_eq_true_iff (e1 e2 : Sentence) :
  Sentence_eq e1 e2 = true ↔ e1 = e2.
Proof.
  revert e2.
  induction e1 as [i|n|o IH|cs IH|a c IHa IHc] using Sentence_induction;
    intros [j|m|p|ds|b d]; simpl;
    try (split; [discriminate | discriminate]).
  - rewrite N.eqb_eq. split; congruence.
  - rewrite bool_decide_eq_true. split; congruence.
  - rewrite IH. split; congruence.
  - change (list_eq Sentence_eq cs ds = true ↔ And cs = And ds).
    rewrite (list_eq_true_iff Sentence_eq cs ds IH). split; congruence.
  - rewrite andb_true_iff, IHa, IHc. split.
    + intros [-> ->]. reflexivity.
    + intros [= -> ->]. tauto.
Qed.

Lemma structurally_equal_eq (e1 e2 : Sentence) :
  structurally_equal e1 e2 → e1 = e2.
Proof.
  revert e2.
  induction e1 as [i|n|o IH|cs IH|a c IHa IHc] using Sentence_induction;
    intros e2 Hse; inversion Hse as [|o' p Hop|cs' ds Hcs|a' b c' d Hab Hcd];
    subst.
  - reflexivity.
  - f_equal. apply IH, Hop.
  - f_equal. clear Hse. revert ds Hcs.
    induction IH as [|x cs Hx _ IHcs]; intros ds Hcs;
      inversion Hcs as [|? y ? ds' Hxy Hrest]; subst; [reflexivity|].
    f_equal; [apply Hx, Hxy | apply IHcs, Hrest].
  - f_equal; [apply IHa, Hab | apply IHc, Hcd].
Qed.

Lemma structurally_equal_refl (e : Sentence) :
  well_formed e = true → structurally_equal e e.
Proof.
  induction e as [i|n|o IH|cs IH|a c IHa IHc] using Sentence_induction;
    intros Hwf.
  - discriminate.
  - constructor.
  - constructor. apply IH, Hwf.
  - apply well_formed_And in Hwf as [_ Hwf]. constructor.
    induction IH as [|x cs Hx _ IHcs]; [constructor|].
    inversion Hwf; subst. constructor; [apply Hx | apply IHcs]; assumption.
  - simpl in Hwf. apply andb_prop in Hwf as [Hwa Hwc].
    constructor; [apply IHa | apply IHc]; assumption.
Qed.

Section Hashing.
Context `{PyHash}.

(** C7.  On well-formed expressions [==] is structural equality: same
    variant, equal names for variables, recursively equal children, equal
    conjunct sequences element by element and in order; and two equal
    expressions have the same hash. *)
Theorem Sentence_eq_structural (e1 e2 : Sentence) :
  well_formed e1 = true → well_formed e2 = true →
  (Sentence_eq e1 e2 = true ↔ structurally_equal e1 e2)
  ∧ (Sentence_eq e1 e2 = true → Sentence_hash e1 = Sentence_hash e2).
Proof.
  intros Hwf1 Hwf2. split.
  - rewrite Sentence_eq_true_iff. split.
    + intros <-. apply structurally_equal_refl, Hwf1.
    + apply structurally_equal_eq.
  - intros Heq. apply Sentence_eq_true_iff in Heq as <-. reflexivity.
Qed.
End Hashing.

Lemma Sentence_eq_structural_witness :
  (Sentence_eq (And [Symbol (pystr "A"); Not (Symbol (pystr "B"))])
               (And [Symbol (pystr "A"); Not (Symbol (pystr "B"))]) = true
   ↔ structurally_equal (And [Symbol (pystr "A"); Not (Symbol (pystr "B"))])
                        (And [Symbol (pystr "A"); Not (Symbol (pystr "B"))]))
  ∧ (Sentence_eq (And [Symbol (pystr "A"); Not (Symbol (pystr "B"))])
                 (And [Symbol (pystr "A"); Not (Symbol (pystr "B"))]) = true →
     @Sentence_hash sample_hash (And [Symbol (pystr "A"); Not (Symbol (pystr "B"))])
     = @Sentence_hash sample_hash (And [Symbol (pystr "A"); Not (Symbol (pystr "B"))])).
Proof.
  apply (@Sentence_eq_structural sample_hash
           (And [Symbol (pystr "A"); Not (Symbol (pystr "B"))])
           (And [Symbol (pystr "A"); Not (Symbol (pystr "B"))]));
    reflexivity.
Defined.

(** Conjunct order matters for [==], and so does the variant. *)
Example Sentence_eq_order :
  Sentence_eq (And [Symbol (pystr "A"); Symbol (pystr "B")])
              (And [Symbol (pystr "B"); Symbol (pystr "A")]) = false
  ∧ Sentence_eq (And [Symbol (pystr "A")]) (Symbol (pystr "A")) = false
  ∧ Sentence_eq (Symbol (pystr "A")) (Symbol (pystr "A")) = true.
Proof. repeat split. Qed.

(** ** [symbols] *)

Lemma foldl_union_union_list (s : gset str) (others : list (gset str)) :
  foldl (∪) s others = ⋃ (s :: others).
Proof.
  apply set_eq. intros n.
  rewrite elem_of_foldl_union, elem_of_union_list. split.
  - intros [Hs|(t & Ht & Hn)].
    + exists s. split; [constructor | exact Hs].
    + exists t. split; [constructor; exact Ht | exact Hn].
  - intros (t & Ht & Hn). apply elem_of_cons in Ht as [->|Ht].
    + left. exact Hn.
    + right. exists t. tauto.
Qed.

Lemma symbols_And (cs : list Sentence) (sets : list (gset str)) :
  cs ≠ [] → Forall2 (λ c s, symbols c = Ok s) cs sets →
  symbols (And cs) = Ok (⋃ sets).
Proof.
  intros Hne Hsets.
  change (symbols (And cs))
    with (comprehension symbols cs ≫= set_union_star).
  apply comprehension_Ok in Hsets as Hcomp. rewrite Hcomp. simpl.
  destruct Hsets as [|c s cs sets _ _]; [contradiction|].
  unfold set_union_star. rewrite foldl_union_union_list. reflexivity.
Qed.

Lemma symbols_Implication (a c : Sentence) (sa sc : gset str) :
  symbols a = Ok sa → symbols c = Ok sc →
  symbols (Implication a c) = Ok (sa ∪ sc).
Proof. intros Ha Hc. simpl. rewrite Ha, Hc. reflexivity. Qed.

(** On a well-formed expression [symbols] returns a set, whose members
    are the variables that occur in the expression. *)
Lemma symbols_occurs (e : Sentence) :
  well_formed e = true → ∃ s, symbols e = Ok s ∧ ∀ n, n ∈ s ↔ occurs n e.
Proof.
  induction e as [i|name|o IH|cs IH|a c IHa IHc] using Sentence_induction;
    intros Hwf.
  - discriminate.
  - exists {[name]}. split; [reflexivity|]. intros n.
    rewrite elem_of_singleton. split.
    + intros ->. constructor.
    + intros Hn. inversion Hn. reflexivity.
  - destruct (IH Hwf) as (s & Hs & Hmem). exists s. split; [exact Hs|].
    intros n. rewrite Hmem. split.
    + apply occurs_Not.
    + intros Hn. inversion Hn. assumption.
  - apply well_formed_And in Hwf as [Hne Hwf].
    assert (Hsets : ∃ sets,
               Forall2 (λ c s, symbols c = Ok s ∧ ∀ n, n ∈ s ↔ occurs n c)
                       cs sets).
    { clear Hne. induction IH as [|c cs Hc _ IHcs].
      - exists []. constructor.
      - inversion Hwf as [|? ? Hwc Hwcs]; subst.
        destruct (Hc Hwc) as (s & Hs). destruct (IHcs Hwcs) as (sets & Hsets).
        exists (s :: sets). constructor; assumption. }
    destruct Hsets as (sets & Hsets). exists (⋃ sets). split.
    + apply symbols_And; [exact Hne|].
      eapply Forall2_impl; [exact Hsets|]. intros c s [Hs _]. exact Hs.
    + intros n. rewrite elem_of_union_list. split.
      * intros (s & Hs & Hn).
        destruct (proj1 (list_elem_of_lookup sets s) Hs) as (k & Hk).
        destruct (Forall2_lookup_r _ _ _ _ _ Hsets Hk) as (c & Hc & _ & Hmem).
        apply occurs_And with c; [eapply list_elem_of_lookup_2, Hc|].
        apply Hmem, Hn.
      * intros Hn. inversion Hn as [| |? c Hc Hoc| |]; subst.
        destruct (proj1 (list_elem_of_lookup cs c) Hc) as (k & Hk).
        destruct (Forall2_lookup_l _ _ _ _ _ Hsets Hk) as (s & Hs & _ & Hmem).
        exists s. split; [eapply list_elem_of_lookup_2, Hs|].
        apply Hmem, Hoc.
  - simpl in Hwf. apply andb_prop in Hwf as [Hwa Hwc].
    destruct (IHa Hwa) as (sa & Hsa & Hma).
    destruct (IHc Hwc) as (sc & Hsc & Hmc).
    exists (sa ∪ sc). split; [apply symbols_Implication; assumption|].
    intros n. rewrite elem_of_union, Hma, Hmc. split.
    + intros [?|?]; [apply occurs_antecedent | apply occurs_consequent];
        assumption.
    + intros Hn. inversion Hn; tauto.
Qed.

(** C8.  On every well-formed expression [symbols] returns the set of the
    variable names that occur in its tree, at any depth.  It is a singleton
    for a variable, the set of the operand for a negation, the union of the
    sets of all conjuncts for a conjunction and the union of the sets of
    both sides for an implication. *)
Theorem symbols_spec (e : Sentence) :
  well_formed e = true →
  (∃ s, symbols e = Ok s ∧ ∀ n, n ∈ s ↔ occurs n e)
  ∧ (∀ name, e = Symbol name → symbols e = Ok {[name]})
  ∧ (∀ operand, e = Not operand → symbols e = symbols operand)
  ∧ (∀ conjuncts, e = And conjuncts →
       ∃ sets, Forall2 (λ c s, symbols c = Ok s) conjuncts sets
               ∧ symbols e = Ok (⋃ sets))
  ∧ (∀ a c, e = Implication a c →
       ∃ sa sc, symbols a = Ok sa ∧ symbols c = Ok sc
                ∧ symbols e = Ok (sa ∪ sc)).
Proof.
  intros Hwf. split; [apply symbols_occurs, Hwf|].
  split; [intros name ->; reflexivity|].
  split; [intros operand ->; reflexivity|].
  split.
  - intros conjuncts ->. apply well_formed_And in Hwf as [Hne Hwf].
    assert (Hsets : ∃ sets, Forall2 (λ c s, symbols c = Ok s) conjuncts sets).
    { clear Hne. induction Hwf as [|c cs Hc _ IH].
      - exists []. constructor.
      - destruct (symbols_occurs c Hc) as (s & Hs & _).
        destruct IH as (sets & Hsets).
        exists (s :: sets). constructor; assumption. }
    destruct Hsets as (sets & Hsets). exists sets.
    split; [exact Hsets | apply symbols_And; assumption].
  - intros a c ->. simpl in Hwf. apply andb_prop in Hwf as [Hwa Hwc].
    destruct (symbols_occurs a Hwa) as (sa & Hsa & _).
    destruct (symbols_occurs c Hwc) as (sc & Hsc & _).
    exists sa, sc. repeat split; try assumption.
    apply symbols_Implication; assumption.
Qed.

Lemma symbols_spec_witness :
  ∃ s, symbols (Implication (And [Symbol (pystr "A"); Not (Symbol (pystr "B"))])
                            (And [Symbol (pystr "A")])) = Ok s
       ∧ ∀ n, n ∈ s
              ↔ occurs n (Implication
                            (And [Symbol (pystr "A"); Not (Symbol (pystr "B"))])
                            (And [Symbol (pystr "A")])).
Proof.
  apply (symbols_spec
           (Implication (And [Symbol (pystr "A"); Not (Symbol (pystr "B"))])
                        (And [Symbol (pystr "A")]))).
  reflexivity.
Defined.

(** A variable that occurs several times is collected once. *)
Example symbols_nested :
  symbols (Implication (And [Symbol (pystr "A"); Not (Symbol (pystr "B"))])
                       (And [Symbol (pystr "A")]))
  = Ok {[pystr "A"; pystr "B"]}.
Proof. vm_compute. reflexivity. Qed.

(** ** [check_violations] *)

Lemma NoDup_snd_inj {A B} (l : list (A * B)) (a b : A) (n : B) :
  NoDup (l.*2) → (a, n) ∈ l → (b, n) ∈ l → a = b.
Proof.
  induction l as [|[x y] l IH]; simpl; intros Hnd Ha Hb.
  - inversion Ha.
  - apply NoDup_cons in Hnd as [Hy Hnd].
    apply elem_of_cons in Ha as [Ha|Ha]; apply elem_of_cons in Hb as [Hb|Hb].
    + congruence.
    + exfalso. apply Hy. injection Ha as -> ->.
      apply list_elem_of_fmap. exists (b, y). split; [reflexivity | exact Hb].
    + exfalso. apply Hy. injection Hb as -> ->.
      apply list_elem_of_fmap. exists (a, y). split; [reflexivity | exact Ha].
    + apply IH; assumption.
Qed.

Lemma key_mapping_names_NoDup : NoDup (key_mapping.*2).
Proof. apply (bool_decide_unpack _). vm_compute. exact I. Qed.

(** No two keys of [key_mapping] are renamed to the same variable. *)
Lemma key_lookup_inj (k1 k2 n : str) :
  key_lookup k1 = Some n → key_lookup k2 = Some n → k1 = k2.
Proof.
  unfold key_lookup. intros H1%elem_of_list_to_map_2 H2%elem_of_list_to_map_2.
  exact (NoDup_snd_inj key_mapping k1 k2 n key_mapping_names_NoDup H1 H2).
Qed.

Lemma foldl_rename_lookup (items : list (str * pyval)) (acc : gmap str pyval)
    (key name : str) :
  key_lookup key = Some name → NoDup (items.*1) →
  foldl (λ model '(key, value),
           match key_lookup key with
           | Some name => <[name := value]> model
           | None => model
           end) acc items !! name
  = match (list_to_map items : gmap str pyval) !! key with
    | Some v => Some v
    | None => acc !! name
    end.
Proof.
  intros Hkey. revert acc.
  induction items as [|[k v] items IH]; intros acc Hnd; [reflexivity|].
  rewrite fmap_cons in Hnd. apply NoDup_cons in Hnd as [Hk Hnd].
  cbn [foldl list_to_map foldr uncurry fst snd]. rewrite IH by exact Hnd.
  destruct (decide (k = key)) as [->|Hne].
  - rewrite lookup_insert_eq, Hkey, lookup_insert_eq.
    rewrite (not_elem_of_list_to_map_1 items key Hk). reflexivity.
  - rewrite lookup_insert_ne by exact Hne.
    destruct (list_to_map items !! key); [reflexivity|].
    destruct (key_lookup k) as [name'|] eqn:Hk'; [|reflexivity].
    apply lookup_insert_ne. intros ->. apply Hne.
    exact (key_lookup_inj k key name Hk' Hkey).
Qed.

(** The model holds, under the variable name, what the scenario holds under
    the key; the order in which the items of the scenario are visited does
    not matter. *)
Lemma build_model_lookup (scenario : gmap str pyval) (key name : str) :
  key_lookup key = Some name → build_model scenario !! name = scenario !! key.
Proof.
  intros Hkey. unfold build_model.
  rewrite (foldl_rename_lookup _ _ key name Hkey) by apply NoDup_fst_map_to_list.
  rewrite list_to_map_to_list, lookup_empty.
  destruct (scenario !! key); reflexivity.
Qed.

Lemma build_model_absent (scenario : gmap str pyval) (name : str) :
  (∀ key, key_lookup key ≠ Some name) → build_model scenario !! name = None.
Proof.
  intros Hname. unfold build_model.
  assert (Hacc : ∀ items (acc : gmap str pyval),
             foldl (λ model '(key, value),
                      match key_lookup key with
                      | Some name => <[name := value]> model
                      | None => model
                      end) acc items !! name = acc !! name).
  { induction items as [|[k v] items IH]; intros acc; [reflexivity|].
    cbn [foldl]. rewrite IH.
    destruct (key_lookup k) as [name'|] eqn:Hk; [|reflexivity].
    apply lookup_insert_ne. intros ->. exact (Hname k Hk). }
  rewrite Hacc. apply lookup_empty.
Qed.

(** A well-formed expression can only fail on a variable that the model
    leaves unbound. *)
Lemma evaluate_Raise_unbound (e : Sentence) (m : gmap str pyval) (x : exn) :
  well_formed e = true → evaluate e m = Raise x →
  ∃ n, occurs n e ∧ m !! n = None ∧ x = UnboundVariable n.
Proof.
  induction e as [i|name|o IH|cs IH|a c IHa IHc] using Sentence_induction;
    intros Hwf Hx.
  - discriminate.
  - simpl in Hx. destruct (m !! name) eqn:Hm; [discriminate|].
    injection Hx as <-. exists name. repeat split; [constructor | exact Hm].
  - simpl in Hx. destruct (evaluate o m) as [b|y] eqn:Ho; [discriminate|].
    injection Hx as ->.
    destruct (IH Hwf eq_refl) as (n & Hn & Hm & ->).
    exists n. repeat split; [apply occurs_Not, Hn | exact Hm].
  - apply well_formed_And in Hwf as [_ Hwf]. rewrite evaluate_And in Hx.
    assert (Hc : ∃ c, c ∈ cs ∧ well_formed c = true ∧ evaluate c m = Raise x).
    { clear IH. induction Hwf as [|c cs Hwc _ IHcs]; [discriminate|].
      simpl in Hx. destruct (evaluate c m) as [[|]|y] eqn:Hc; simpl in Hx.
      - destruct (IHcs Hx) as (d & Hd & Hwd & Hxd).
        exists d. split; [apply list_elem_of_further, Hd | tauto].
      - discriminate.
      - injection Hx as ->. exists c. split; [apply list_elem_of_here | tauto]. }
    destruct Hc as (c & Hc & Hwc & Hxc).
    rewrite Forall_forall in IH.
    destruct (IH c Hc Hwc Hxc) as (n & Hn & Hm & ->).
    exists n. repeat split; [apply occurs_And with c; assumption | exact Hm].
  - simpl in Hwf. apply andb_prop in Hwf as [Hwa Hwc].
    simpl in Hx. destruct (evaluate a m) as [[|]|y] eqn:Ha; simpl in Hx.
    + destruct (IHc Hwc Hx) as (n & Hn & Hm & ->).
      exists n. repeat split; [apply occurs_consequent, Hn | exact Hm].
    + discriminate.
    + injection Hx as ->. destruct (IHa Hwa eq_refl) as (n & Hn & Hm & ->).
      exists n. repeat split; [apply occurs_antecedent, Hn | exact Hm].
Qed.

(** With the catalogue of [_initialize_rules], the errors that
    [check_violations] skips are unbound variables. *)
Lemma catalogue_errors_unbound (scenario : gmap str pyval)
    (rule : Sentence) (msg : str) (x : exn) :
  (rule, msg) ∈ rules TrafficRules_init →
  evaluate rule (build_model scenario) = Raise x →
  ∃ n, occurs n rule ∧ build_model scenario !! n = None ∧ x = UnboundVariable n.
Proof.
  intros Hin. apply evaluate_Raise_unbound.
  assert (Hwf : Forall (λ r : Sentence * str, well_formed r.1 = true)
                       (rules TrafficRules_init)).
  { repeat constructor. }
  rewrite Forall_forall in Hwf. exact (Hwf (rule, msg) Hin).
Qed.

Lemma check_rules_spec (rs : list (Sentence * str)) (model : gmap str pyval)
    (violations : list str) :
  check_rules rs model violations
  = Ok (violations ++ map snd (List.filter (fires model) rs)).
Proof.
  revert violations. induction rs as [|[rule msg] rs IH]; intros violations.
  - simpl. rewrite app_nil_r. reflexivity.
  - simpl. unfold fires at 1. simpl.
    destruct (evaluate rule model) as [[|]|e].
    + rewrite IH. simpl. rewrite <- app_assoc. reflexivity.
    + apply IH.
    + replace (isinstance_Exception e) with true by (destruct e; reflexivity).
      apply IH.
Qed.

Lemma nothing_to_evaluate_not_unbound (n : str) :
  Exception (pystr "nothing to evaluate") ≠ UnboundVariable n.
Proof. unfold UnboundVariable. simpl. discriminate. Qed.

(** C3, refuted as stated: evaluating a direct instance of [Sentence]
    raises an exception that is no unbound-variable error; the rule is
    skipped all the same, the remaining rule is checked and the call
    returns normally.  The handler also matches a [TypeError]. *)
Lemma check_violations_swallows_any_error :
  evaluate (BaseSentence 0) (build_model ∅)
  = Raise (Exception (pystr "nothing to evaluate"))
  ∧ (∀ n, Exception (pystr "nothing to evaluate") ≠ UnboundVariable n)
  ∧ check_violations
      {| rules := [(BaseSentence 0, pystr "first"); (And [], pystr "second")] |} ∅
    = Ok [pystr "second"]
  ∧ isinstance_Exception (TypeError (pystr "must be a logical sentence")) = true.
Proof.
  split; [reflexivity|]. split; [apply nothing_to_evaluate_not_unbound|].
  split; reflexivity.
Qed.

(** C3 (as amended).  [check_violations] never raises: a rule whose
    evaluation raises an exception, of whatever kind, is skipped and the
    remaining rules are still checked.  The list returned holds the labels
    of the rules whose expression evaluates to true, in catalogue order. *)
Theorem check_violations_spec (self : TrafficRules) (scenario : gmap str pyval) :
  check_violations self scenario
  = Ok (map snd (List.filter (fires (build_model scenario)) (rules self)))
  ∧ (∀ rule msg rs violations e,
       evaluate rule (build_model scenario) = Raise e →
       check_rules ((rule, msg) :: rs) (build_model scenario) violations
       = check_rules rs (build_model scenario) violations)
  ∧ (∀ rule msg,
       (rule, msg) ∈ rules self →
       evaluate rule (build_model scenario) = Ok true →
       ∃ violations, check_violations self scenario = Ok violations
                     ∧ msg ∈ violations).
Proof.
  split; [apply check_rules_spec|]. split.
  - intros rule msg rs violations e He. simpl. rewrite He.
    destruct e; reflexivity.
  - intros rule msg Hin Htrue. eexists. split; [apply check_rules_spec|].
    simpl. apply list_elem_of_In, in_map_iff. exists (rule, msg).
    split; [reflexivity|]. apply filter_In. split.
    + apply list_elem_of_In, Hin.
    + unfold fires. simpl. rewrite Htrue. reflexivity.
Qed.

Lemma check_violations_spec_witness :
  (∃ violations,
      check_violations TrafficRules_init speeding_in_residential_area
      = Ok violations
      ∧ pystr "Speed violation in residential area" ∈ violations)
  ∧ check_rules [(And [stop_sign; Not complete_stop], pystr "Stop sign violation")]
      (build_model partial_scenario) []
    = check_rules [] (build_model partial_scenario) [].
Proof.
  split.
  - apply (proj2 (proj2 (check_violations_spec
                           TrafficRules_init speeding_in_residential_area))
             (And [speed_limit; residential])).
    + apply list_elem_of_here.
    + vm_compute. reflexivity.
  - apply (proj1 (proj2 (check_violations_spec
                           TrafficRules_init partial_scenario))
             (And [stop_sign; Not complete_stop]) (pystr "Stop sign violation")
             [] [] (UnboundVariable (pystr "CompleteStop"))).
    vm_compute. reflexivity.
Defined.

(** The scenarios of [main]: violations come out in catalogue order. *)
Example check_normal_highway_driving :
  check_violations TrafficRules_init normal_highway_driving = Ok [].
Proof. vm_compute. reflexivity. Qed.

Example check_speeding_in_residential_area :
  check_violations TrafficRules_init speeding_in_residential_area
  = Ok [pystr "Speed violation in residential area"].
Proof. vm_compute. reflexivity. Qed.

Example check_illegal_parking_and_stop_sign :
  check_violations TrafficRules_init illegal_parking_and_stop_sign
  = Ok [pystr "Stop sign violation"; pystr "Parking violation"].
Proof. vm_compute. reflexivity. Qed.

(** With variables left out of the scenario, the rules that reach one of
    them are skipped; a rule decided before reaching it is not. *)
Example check_partial_scenario :
  check_violations TrafficRules_init partial_scenario
  = Ok [pystr "Speed violation on highway"]
  ∧ evaluate (And [speed_limit; residential]) (build_model partial_scenario)
    = Raise (UnboundVariable (pystr "Residential"))
  ∧ evaluate (And [red_light; at_intersection; vehicle_moving])
      (build_model partial_scenario)
    = Raise (UnboundVariable (pystr "RedLight")).
Proof. repeat split; vm_compute; reflexivity. Qed.

(** ** The scan of [balanced] *)

Lemma depth_nil : depth [] = 0.
Proof. reflexivity. Qed.

Lemma depth_cons (c : N) (s : str) :
  depth (c :: s)
  = (if (c =? lparen)%N then 1 else if (c =? rparen)%N then -1 else 0) + depth s.
Proof.
  unfold depth. simpl.
  destruct (c =? lparen)%N eqn:Hl; destruct (c =? rparen)%N eqn:Hr; try lia.
  apply N.eqb_eq in Hl, Hr. subst. discriminate.
Qed.

Lemma balanced_from_depth (s : str) (count : Z) :
  0 ≤ count →
  balanced_from count s = true
  ↔ (∀ k, 0 ≤ count + depth (take k s)) ∧ count + depth s = 0.
Proof.
  revert count. induction s as [|c s IH]; intros count Hcount.
  - simpl. rewrite Z.eqb_eq. split.
    + intros ->. split; [intros k; rewrite take_nil|]; rewrite depth_nil; lia.
    + rewrite depth_nil. lia.
  - cbn [balanced_from]. rewrite depth_cons.
    assert (Htake : ∀ P : Z → Prop,
               (∀ k, P (depth (take k (c :: s))))
               ↔ P 0 ∧ ∀ k, P (depth (c :: take k s))).
    { intros P. split.
      - intros HP. split; [exact (HP 0%nat) | intros k; exact (HP (S k))].
      - intros [H0 HS] [|k]; [exact H0 | exact (HS k)]. }
    rewrite (Htake (λ d, 0 ≤ count + d)).
    setoid_rewrite depth_cons.
    destruct (c =? lparen)%N.
    + rewrite IH by lia. split.
      * intros [Hk Hend]. split; [split; [lia|]|lia]. intros k. specialize (Hk k). lia.
      * intros [[_ Hk] Hend]. split; [|lia]. intros k. specialize (Hk k). lia.
    + destruct (c =? rparen)%N.
      * destruct (count <=? 0) eqn:Hle.
        -- apply Z.leb_le in Hle. split; [discriminate|].
           intros [[_ Hk] _]. specialize (Hk 0%nat). rewrite take_0, depth_nil in Hk. lia.
        -- apply Z.leb_gt in Hle. rewrite IH by lia. split.
           ++ intros [Hk Hend]. split; [split; [lia|]|lia].
              intros k. specialize (Hk k). lia.
           ++ intros [[_ Hk] Hend]. split; [|lia]. intros k. specialize (Hk k). lia.
      * rewrite IH by lia. split.
        -- intros [Hk Hend]. split; [split; [lia|]|lia].
           intros k. specialize (Hk k). lia.
        -- intros [[_ Hk] Hend]. split; [|lia]. intros k. specialize (Hk k). lia.
Qed.

(** X1.  [balanced] accepts a string exactly when no prefix of it closes
    more parentheses than it opens and the whole string closes as many as
    it opens; the other characters play no role. *)
Theorem balanced_iff_depth (s : str) :
  balanced s = true ↔ (∀ k, 0 ≤ depth (take k s)) ∧ depth s = 0.
Proof.
  unfold balanced. rewrite balanced_from_depth by lia.
  split; intros [Hk Hend]; (split; [intros k; specialize (Hk k)|]); lia.
Qed.

(** A balanced string leaves the counter where it found it. *)
Lemma balanced_from_app (s t : str) (count k : Z) :
  0 ≤ k → balanced_from count s = true →
  balanced_from (count + k) (s ++ t) = balanced_from k t.
Proof.
  intros Hk. revert count. induction s as [|c s IH]; intros count; simpl.
  - rewrite Z.eqb_eq. intros ->. reflexivity.
  - destruct (c =? lparen)%N.
    + intros Hs. rewrite <- (IH _ Hs). f_equal. lia.
    + destruct (c =? rparen)%N; [|apply IH].
      destruct (count <=? 0) eqn:Hle; [discriminate|].
      apply Z.leb_gt in Hle. intros Hs.
      destruct (count + k <=? 0) eqn:Hle'; [apply Z.leb_le in Hle'; lia|].
      rewrite <- (IH _ Hs). f_equal. lia.
Qed.

Lemma balanced_app (s t : str) :
  balanced s = true → balanced t = true → balanced (s ++ t) = true.
Proof.
  unfold balanced. intros Hs Ht.
  rewrite <- Ht. exact (balanced_from_app s t 0 0 (Z.le_refl 0) Hs).
Qed.

Lemma balanced_wrapped (s : str) :
  balanced s = true → balanced (wrapped s) = true.
Proof.
  unfold balanced, wrapped. intros Hs. simpl.
  exact (balanced_from_app s [rparen] 0 1 ltac:(lia) Hs).
Qed.

Lemma balanced_concat (parts : list str) :
  Forall (λ p, balanced p = true) parts → balanced (concat parts) = true.
Proof.
  induction 1 as [|p parts Hp _ IH]; [reflexivity|].
  simpl. apply balanced_app; assumption.
Qed.

(** X2.  Balanced strings are closed under concatenation and under
    wrapping in a pair of parentheses, and a string that closes a
    parenthesis after a balanced prefix is rejected. *)
Theorem balanced_compose (s t : str) :
  balanced s = true →
  (balanced t = true → balanced (s ++ t) = true)
  ∧ balanced (wrapped s) = true
  ∧ balanced (s ++ [rparen] ++ t) = false.
Proof.
  intros Hs. split; [apply balanced_app, Hs|]. split; [apply balanced_wrapped, Hs|].
  unfold balanced.
  exact (balanced_from_app s ([rparen] ++ t) 0 0 (Z.le_refl 0) Hs).
Qed.

Lemma balanced_compose_witness :
  balanced (pystr "(a)(b)" ++ pystr "c()") = true
  ∧ balanced (wrapped (pystr "(a)(b)")) = true
  ∧ balanced (pystr "(a)(b)" ++ [rparen] ++ pystr "(") = false.
Proof.
  destruct (balanced_compose (pystr "(a)(b)") (pystr "c()") eq_refl)
    as (Happ & Hwrap & _).
  destruct (balanced_compose (pystr "(a)(b)") (pystr "(") eq_refl)
    as (_ & _ & Hclose).
  split; [apply Happ; reflexivity|]. split; [exact Hwrap | exact Hclose].
Defined.

(** ** The shape of what [parenthesize] returns *)

Lemma fully_parenthesized_wrapped (s : str) :
  fully_parenthesized s = true → ∃ t, s = wrapped t ∧ balanced t = true.
Proof.
  unfold fully_parenthesized.
  intros [[Hh Hl]%andb_prop Hb]%andb_prop.
  apply bool_decide_eq_true in Hh, Hl.
  destruct s as [|c s]; [discriminate|]. injection Hh as ->.
  destruct (decide (s = [])) as [->|Hne]; [discriminate|].
  exists (removelast s). split; [|exact Hb].
  unfold wrapped. simpl. f_equal.
  rewrite last_cons in Hl. destruct (last s) as [d|] eqn:Hd.
  - injection Hl as ->. apply last_Some in Hd as [s' ->].
    rewrite removelast_last. reflexivity.
  - apply last_None in Hd. contradiction.
Qed.

(** X3.  The test for an already parenthesized string succeeds exactly on
    the strings made of one opening parenthesis, a balanced string and one
    closing parenthesis: the first parenthesis is closed by the last one. *)
Theorem fully_parenthesized_iff (s : str) :
  fully_parenthesized s = true ↔ ∃ t, s = wrapped t ∧ balanced t = true.
Proof.
  split; [apply fully_parenthesized_wrapped|].
  intros (t & -> & Ht). unfold wrapped.
  rewrite wrap_fully_parenthesized. exact Ht.
Qed.

Section ParenthesizeShape.
Context `{Unicode}.

Lemma parenthesize_alpha (s : str) : isalpha s = true → parenthesize s = s.
Proof.
  intros Ha. unfold parenthesize. rewrite Ha, orb_true_r. reflexivity.
Qed.

Lemma parenthesize_balanced (s : str) :
  balanced s = true → balanced (parenthesize s) = true.
Proof.
  intros Hs. destruct (parenthesize_cases s) as [->|(_ & _ & _ & ->)];
    [exact Hs | apply balanced_wrapped, Hs].
Qed.

(** What [parenthesize] returns for a balanced argument: nothing, a run of
    letters, or a balanced string in one pair of parentheses. *)
Lemma parenthesize_balanced_shape (s : str) :
  balanced s = true →
  parenthesize s = []
  ∨ isalpha (parenthesize s) = true
  ∨ ∃ t, parenthesize s = wrapped t ∧ balanced t = true.
Proof.
  intros Hs. unfold parenthesize.
  destruct s as [|c s]; [left; reflexivity|].
  simpl (length _ =? 0)%nat. cbv iota. simpl orb.
  destruct (isalpha (c :: s)) eqn:Ha; [right; left; exact Ha|].
  destruct (fully_parenthesized (c :: s)) eqn:Hf.
  - right. right. apply fully_parenthesized_wrapped, Hf.
  - right. right. exists (c :: s). split; [reflexivity | exact Hs].
Qed.

Lemma parenthesize_fixed (s : str) :
  balanced s = true → parenthesize (parenthesize s) = parenthesize s.
Proof.
  intros Hs. destruct (parenthesize_cases s) as [Hid|(Hne & Ha & _ & Hw)].
  - rewrite Hid. exact Hid.
  - rewrite Hw. fold (wrapped s). unfold wrapped.
    rewrite parenthesize_wrap, Hs by assumption. reflexivity.
Qed.

(** X4.  [parenthesize] returns its argument as it is or inside one added
    pair of parentheses, never anything else; an empty or alphabetic
    argument comes back unchanged, and for any other argument the result
    begins with an opening and ends with a closing parenthesis. *)
Theorem parenthesize_shape (s : str) :
  (parenthesize s = s ∨ parenthesize s = wrapped s)
  ∧ (s = [] ∨ isalpha s = true → parenthesize s = s)
  ∧ (s ≠ [] → isalpha s = false →
     head (parenthesize s) = Some lparen ∧ last (parenthesize s) = Some rparen).
Proof.
  split; [|split].
  - destruct (parenthesize_cases s) as [Hid|(_ & _ & _ & Hw)]; [left|right];
      assumption.
  - intros [->|Ha]; [reflexivity | apply parenthesize_alpha, Ha].
  - intros Hne Ha. unfold parenthesize.
    destruct s as [|c s]; [contradiction|].
    simpl (length _ =? 0)%nat. cbv iota. simpl orb. rewrite Ha. simpl orb.
    destruct (fully_parenthesized (c :: s)) eqn:Hf.
    + unfold fully_parenthesized in Hf.
      apply andb_prop in Hf as [[Hh Hl]%andb_prop _].
      apply bool_decide_eq_true in Hh, Hl. split; assumption.
    + split; [apply wrap_head | apply wrap_last].
Qed.
End ParenthesizeShape.

Lemma parenthesize_shape_witness :
  head (@parenthesize latin1_letter (pystr "a b")) = Some lparen
  ∧ last (@parenthesize latin1_letter (pystr "a b")) = Some rparen.
Proof.
  apply (proj2 (proj2 (@parenthesize_shape latin1_letter (pystr "a b")))).
  - discriminate.
  - reflexivity.
Defined.

(** ** Parentheses in rendered formulas *)

Lemma balanced_join (sep : str) (parts : list str) :
  balanced sep = true → Forall (λ p, balanced p = true) parts →
  balanced (join sep parts) = true.
Proof.
  intros Hsep [|p ps Hp Hparts]; [reflexivity|].
  simpl. apply balanced_app; [exact Hp|]. apply balanced_concat.
  apply Forall_forall. intros q Hq.
  apply list_elem_of_In, in_map_iff in Hq as (r & <- & Hr).
  apply balanced_app; [exact Hsep|].
  rewrite Forall_forall in Hparts. apply Hparts, list_elem_of_In, Hr.
Qed.

Section FormulaParentheses.
Context `{Unicode}.

Lemma formula_balanced (e : Sentence) :
  balanced_names e → balanced (formula e) = true.
Proof.
  unfold balanced_names.
  induction e as [i|name|o IH|cs IH|a c IHa IHc] using Sentence_induction;
    intros Hnames.
  - reflexivity.
  - apply Hnames. constructor.
  - cbn [formula]. apply balanced_app; [reflexivity|].
    apply parenthesize_balanced, IH. intros n Hn. apply Hnames, occurs_Not, Hn.
  - assert (Hcs : Forall (λ c, balanced (formula c) = true) cs).
    { apply Forall_forall. intros c Hc. rewrite Forall_forall in IH.
      apply IH; [exact Hc|]. intros n Hn. apply Hnames.
      apply occurs_And with c; assumption. }
    assert (Hjoin : balanced (join and_sep
                                (map (λ c, parenthesize (formula c)) cs)) = true).
    { apply balanced_join; [reflexivity|].
      apply Forall_forall. intros q Hq.
      apply list_elem_of_In, in_map_iff in Hq as (c & <- & Hc).
      apply parenthesize_balanced.
      rewrite Forall_forall in Hcs. apply Hcs, list_elem_of_In, Hc. }
    destruct cs as [|c [|d cs]]; try exact Hjoin.
    cbn [formula]. inversion Hcs; assumption.
  - cbn [formula]. apply balanced_app; [|apply balanced_app; [reflexivity|]].
    + apply parenthesize_balanced, IHa. intros n Hn.
      apply Hnames, occurs_antecedent, Hn.
    + apply parenthesize_balanced, IHc. intros n Hn.
      apply Hnames, occurs_consequent, Hn.
Qed.

(** X5.  When the variable names have balanced parentheses, so has the
    rendered formula, and parenthesizing it a second time changes nothing:
    nested connectives never pile up parentheses. *)
Theorem formula_parenthesize_stable (e : Sentence) :
  balanced_names e →
  balanced (formula e) = true
  ∧ parenthesize (parenthesize (formula e)) = parenthesize (formula e).
Proof.
  intros Hnames. pose proof (formula_balanced e Hnames) as Hb.
  split; [exact Hb | apply parenthesize_fixed, Hb].
Qed.

Lemma isalpha_head (c : N) (s : str) : isalpha (c :: s) = true → is_letter c = true.
Proof. unfold isalpha. simpl. intros [Hc _]%andb_prop. exact Hc. Qed.

(** A string with a space at its top level, after a part that
    [parenthesize] returned, is not mistaken for a parenthesized one. *)
Lemma parenthesize_infix (p r : str) :
  is_letter 32%N = false → is_letter lparen = false →
  p = [] ∨ isalpha p = true ∨ (∃ t, p = wrapped t ∧ balanced t = true) →
  parenthesize (p ++ [32%N] ++ r) = wrapped (p ++ [32%N] ++ r).
Proof.
  intros Hspace Hparen Hp. unfold parenthesize.
  assert (Hlen : (length (p ++ [32%N] ++ r) =? 0)%nat = false).
  { rewrite length_app. simpl. apply Nat.eqb_neq. lia. }
  assert (Ha : isalpha (p ++ [32%N] ++ r) = false).
  { unfold isalpha. rewrite forallb_app. simpl. rewrite Hspace.
    rewrite andb_false_r, andb_false_r. reflexivity. }
  assert (Hf : fully_parenthesized (p ++ [32%N] ++ r) = false).
  { destruct (fully_parenthesized (p ++ [32%N] ++ r)) eqn:Hf; [|reflexivity].
    exfalso. apply fully_parenthesized_wrapped in Hf as (u & Hu & Hbu).
    destruct Hp as [->|[Hp|(t & -> & Ht)]].
    - discriminate.
    - destruct p as [|c p]; [discriminate|].
      apply isalpha_head in Hp. injection Hu as -> _. congruence.
    - unfold wrapped in Hu. simpl in Hu. injection Hu as Hu.
      rewrite <- !app_assoc in Hu. simpl in Hu.
      destruct (exists_last (l := 32%N :: r) ltac:(discriminate)) as (r' & x & Hr).
      rewrite Hr in Hu.
      replace (t ++ rparen :: r' ++ [x]) with ((t ++ rparen :: r') ++ [x]) in Hu
        by (rewrite <- app_assoc; reflexivity).
      apply app_inj_tail in Hu as [Hu _].
      pose proof (balanced_from_app t ([rparen] ++ r') 0 0 (Z.le_refl 0) Ht) as Hc.
      simpl in Hc. unfold balanced in Hbu. rewrite <- Hu in Hbu.
      simpl in Hbu. change (0 + 0) with 0 in Hc. congruence. }
  rewrite Hlen, Ha, Hf. reflexivity.
Qed.

(** X6.  Inside a larger formula a variable with an alphabetic name stands
    without parentheses, while a negation, an implication and a
    conjunction of two or more conjuncts always stand in one pair of
    parentheses, so that the connectives of a rendered formula cannot be
    regrouped.  (Space, the parentheses and the negation sign are not
    letters; names have balanced parentheses.) *)
Theorem formula_operand_parentheses (e : Sentence) :
  is_letter 32%N = false → is_letter lparen = false → is_letter 172%N = false →
  (∀ n, e = Symbol n → isalpha n = true → parenthesize (formula e) = n)
  ∧ (compound e = true → balanced_names e →
     parenthesize (formula e) = wrapped (formula e)).
Proof.
  intros Hspace Hparen Hneg. split.
  - intros n -> Hn. apply parenthesize_alpha, Hn.
  - intros Hc Hnames. destruct e as [i|n|o|cs|a c]; try discriminate.
    + cbn [formula]. unfold parenthesize, not_sign. simpl.
      unfold isalpha. simpl. rewrite Hneg. reflexivity.
    + destruct cs as [|a [|b cs]]; try discriminate.
      cbn [formula map]. rewrite join_cons. unfold and_sep at 1.
      change ([32%N; 8743%N; 32%N] ++ ?r) with ([32%N] ++ ([8743%N; 32%N] ++ r)).
      apply parenthesize_infix; try assumption.
      apply parenthesize_balanced_shape, formula_balanced.
      intros n Hn. apply Hnames. apply occurs_And with a; [constructor | exact Hn].
    + cbn [formula]. unfold arrow at 1.
      change (pystr " => " ++ ?r) with ([32%N] ++ ([61%N; 62%N; 32%N] ++ r)).
      apply parenthesize_infix; try assumption.
      apply parenthesize_balanced_shape, formula_balanced.
      intros n Hn. apply Hnames, occurs_antecedent, Hn.
Qed.
End FormulaParentheses.

(** Inverts the occurrences of a variable in an expression given by its
    constructors. *)
Ltac invert_occurs :=
  match goal with
  | H : occurs _ (BaseSentence _) |- _ => inversion H
  | H : occurs _ (Symbol _) |- _ => inversion H; clear H; subst
  | H : occurs _ (Not _) |- _ => inversion H; clear H; subst
  | H : occurs _ (And _) |- _ => inversion H; clear H; subst
  | H : occurs _ (Implication _ _) |- _ => inversion H; clear H; subst
  | H : _ ∈ _ :: _ |- _ => apply elem_of_cons in H as [->|H]
  | H : _ ∈ [] |- _ => inversion H
  end.

Lemma balanced_names_alphabetic :
  balanced_names
    (Implication (And [Symbol (pystr "A"); Symbol (pystr "B")])
                 (Not (Symbol (pystr "C")))).
Proof.
  intros n Hn. repeat invert_occurs; reflexivity.
Qed.

Lemma formula_parenthesize_stable_witness :
  balanced (@formula latin1_letter
              (Implication (And [Symbol (pystr "A"); Symbol (pystr "B")])
                           (Not (Symbol (pystr "C"))))) = true
  ∧ @parenthesize latin1_letter
      (@parenthesize latin1_letter
         (@formula latin1_letter
            (Implication (And [Symbol (pystr "A"); Symbol (pystr "B")])
                         (Not (Symbol (pystr "C"))))))
    = @parenthesize latin1_letter
        (@formula latin1_letter
           (Implication (And [Symbol (pystr "A"); Symbol (pystr "B")])
                        (Not (Symbol (pystr "C"))))).
Proof.
  apply (@formula_parenthesize_stable latin1_letter).
  exact balanced_names_alphabetic.
Defined.

Lemma formula_operand_parentheses_witness :
  @parenthesize latin1_letter
    (@formula latin1_letter
       (Implication (And [Symbol (pystr "A"); Symbol (pystr "B")])
                    (Not (Symbol (pystr "C")))))
  = wrapped (@formula latin1_letter
               (Implication (And [Symbol (pystr "A"); Symbol (pystr "B")])
                            (Not (Symbol (pystr "C"))))).
Proof.
  apply (@formula_operand_parentheses latin1_letter).
  - reflexivity.
  - reflexivity.
  - reflexivity.
  - reflexivity.
  - exact balanced_names_alphabetic.
Defined.

(** ** What [evaluate] depends on *)

Lemma all_of_ext {A} (f g : A → result bool) (l : list A) :
  Forall (λ x, f x = g x) l → all_of f l = all_of g l.
Proof.
  induction 1 as [|x l Hx _ IH]; [reflexivity|].
  simpl. rewrite Hx, IH. reflexivity.
Qed.

Lemma all_of_mono {A} (f g : A → result bool) (l : list A) (b : bool) :
  Forall (λ x, ∀ b, f x = Ok b → g x = Ok b) l →
  all_of f l = Ok b → all_of g l = Ok b.
Proof.
  induction 1 as [|x l Hx _ IH]; [exact id|].
  simpl. destruct (f x) as [[|]|e] eqn:Hf; simpl; try discriminate.
  - rewrite (Hx true eq_refl). exact IH.
  - rewrite (Hx false eq_refl). exact id.
Qed.

Lemma evaluate_agree (e : Sentence) (m1 m2 : gmap str pyval) :
  (∀ n, occurs n e → truthy <$> m1 !! n = truthy <$> m2 !! n) →
  evaluate e m1 = evaluate e m2.
Proof.
  induction e as [i|name|o IH|cs IH|a c IHa IHc] using Sentence_induction;
    intros Hagree.
  - reflexivity.
  - specialize (Hagree name (occurs_Symbol name)). simpl.
    destruct (m1 !! name), (m2 !! name); simpl in Hagree; congruence.
  - simpl. rewrite IH; [reflexivity|].
    intros n Hn. apply Hagree, occurs_Not, Hn.
  - rewrite !evaluate_And. apply all_of_ext.
    apply Forall_forall. intros c Hc. rewrite Forall_forall in IH.
    apply IH; [exact Hc|]. intros n Hn. apply Hagree.
    apply occurs_And with c; assumption.
  - simpl. rewrite IHa, IHc; [reflexivity| |].
    + intros n Hn. apply Hagree, occurs_consequent, Hn.
    + intros n Hn. apply Hagree, occurs_antecedent, Hn.
Qed.

(** X7.  The result of [evaluate], value or exception, depends only on
    the variables that occur in the expression, and for those only on
    whether they are bound and on the truthiness of their values. *)
Theorem evaluate_depends_on_truthiness (e : Sentence) (m1 m2 : gmap str pyval) :
  (∀ n, occurs n e → truthy <$> m1 !! n = truthy <$> m2 !! n) →
  evaluate e m1 = evaluate e m2.
Proof. apply evaluate_agree. Qed.

Lemma evaluate_depends_on_truthiness_witness :
  evaluate (And [Symbol (pystr "A"); Not (Symbol (pystr "B"))])
    (<[pystr "A" := PInt 7]> {[pystr "B" := PStr []]})
  = evaluate (And [Symbol (pystr "A"); Not (Symbol (pystr "B"))])
      (<[pystr "A" := PBool true]>
         (<[pystr "B" := PNone]> {[pystr "C" := PBool true]})).
Proof.
  apply evaluate_depends_on_truthiness.
  intros n Hn. repeat invert_occurs; reflexivity.
Defined.

Lemma evaluate_weaken (e : Sentence) (m m' : gmap str pyval) (b : bool) :
  m ⊆ m' → evaluate e m = Ok b → evaluate e m' = Ok b.
Proof.
  intros Hsub. revert b.
  induction e as [i|name|o IH|cs IH|a c IHa IHc] using Sentence_induction;
    intros b.
  - discriminate.
  - simpl. destruct (m !! name) as [v|] eqn:Hv; [|discriminate].
    rewrite (lookup_weaken m m' name v Hv Hsub). exact id.
  - simpl. destruct (evaluate o m) as [x|] eqn:Ho; [|discriminate].
    rewrite (IH x eq_refl). exact id.
  - rewrite !evaluate_And. apply all_of_mono. exact IH.
  - simpl. destruct (evaluate a m) as [[|]|] eqn:Ha; simpl; try discriminate.
    + rewrite (IHa true eq_refl). simpl. apply IHc.
    + rewrite (IHa false eq_refl). exact id.
Qed.

(** X8.  A value obtained in a model is obtained in every model that
    extends it: binding more variables never changes a result, it can only
    turn an exception into a value. *)
Theorem evaluate_model_extension (e : Sentence) (m m' : gmap str pyval) (b : bool) :
  m ⊆ m' → evaluate e m = Ok b → evaluate e m' = Ok b.
Proof. apply evaluate_weaken. Qed.

Lemma evaluate_model_extension_witness :
  evaluate (Implication (Symbol (pystr "A")) (Symbol (pystr "B")))
    (<[pystr "B" := PBool false]> {[pystr "A" := PBool false]}) = Ok true.
Proof.
  apply (evaluate_model_extension _ {[pystr "A" := PBool false]}).
  - apply insert_subseteq. reflexivity.
  - reflexivity.
Defined.

(** X9.  A well-formed expression evaluates without exception in every
    model that binds the names [symbols] returns for it. *)
Theorem evaluate_on_symbols (e : Sentence) (s : gset str) (m : gmap str pyval) :
  well_formed e = true → symbols e = Ok s → s ⊆ dom m →
  ∃ b, evaluate e m = Ok b.
Proof.
  intros Hwf Hs Hdom. apply evaluate_total; [exact Hwf|].
  destruct (symbols_occurs e Hwf) as (s' & Hs' & Hmem).
  rewrite Hs in Hs'. injection Hs' as <-.
  intros n Hn. apply elem_of_dom, Hdom, Hmem, Hn.
Qed.

Lemma evaluate_on_symbols_witness :
  ∃ b, evaluate (And [Symbol (pystr "A"); Not (Symbol (pystr "B"))])
         (<[pystr "A" := PBool true]> {[pystr "B" := PBool true]}) = Ok b.
Proof.
  apply (evaluate_on_symbols _ {[pystr "A"; pystr "B"]}).
  - reflexivity.
  - vm_compute. reflexivity.
  - apply (bool_decide_unpack _). vm_compute. exact I.
Defined.

Lemma evaluate_Raise_cases (e : Sentence) (m : gmap str pyval) (x : exn) :
  evaluate e m = Raise x →
  x = Exception (pystr "nothing to evaluate")
  ∨ ∃ n, occurs n e ∧ m !! n = None ∧ x = UnboundVariable n.
Proof.
  induction e as [i|name|o IH|cs IH|a c IHa IHc] using Sentence_induction;
    intros Hx.
  - left. simpl in Hx. congruence.
  - simpl in Hx. destruct (m !! name) eqn:Hm; [discriminate|].
    injection Hx as <-. right. exists name.
    repeat split; [constructor | exact Hm].
  - simpl in Hx. destruct (evaluate o m) as [b|y] eqn:Ho; [discriminate|].
    injection Hx as ->.
    destruct (IH eq_refl) as [->|(n & Hn & Hm & ->)]; [left; reflexivity|].
    right. exists n. repeat split; [apply occurs_Not, Hn | exact Hm].
  - rewrite evaluate_And in Hx.
    assert (Hc : ∃ c, c ∈ cs ∧ evaluate c m = Raise x).
    { clear IH. induction cs as [|c cs IHcs]; [discriminate|].
      simpl in Hx. destruct (evaluate c m) as [[|]|y] eqn:Hc; simpl in Hx.
      - destruct (IHcs Hx) as (d & Hd & Hxd).
        exists d. split; [apply list_elem_of_further, Hd | exact Hxd].
      - discriminate.
      - injection Hx as ->. exists c. split; [apply list_elem_of_here | exact Hc]. }
    destruct Hc as (c & Hc & Hxc). rewrite Forall_forall in IH.
    destruct (IH c Hc Hxc) as [->|(n & Hn & Hm & ->)]; [left; reflexivity|].
    right. exists n. repeat split; [apply occurs_And with c; assumption | exact Hm].
  - simpl in Hx. destruct (evaluate a m) as [[|]|y] eqn:Ha; simpl in Hx.
    + destruct (IHc Hx) as [->|(n & Hn & Hm & ->)]; [left; reflexivity|].
      right. exists n. repeat split; [apply occurs_consequent, Hn | exact Hm].
    + discriminate.
    + injection Hx as ->.
      destruct (IHa eq_refl) as [->|(n & Hn & Hm & ->)]; [left; reflexivity|].
      right. exists n. repeat split; [apply occurs_antecedent, Hn | exact Hm].
Qed.

(** X10.  Whenever [evaluate] raises, the exception is the one of the base
    class or names a variable that occurs in the expression and is absent
    from the model; it is never a [TypeError].  On a well-formed expression
    only the second case arises. *)
Theorem evaluate_exceptions (e : Sentence) (m : gmap str pyval) (x : exn) :
  evaluate e m = Raise x →
  (x = Exception (pystr "nothing to evaluate")
   ∨ ∃ n, occurs n e ∧ m !! n = None ∧ x = UnboundVariable n)
  ∧ (∀ msg, x ≠ TypeError msg)
  ∧ (well_formed e = true →
     ∃ n, occurs n e ∧ m !! n = None ∧ x = UnboundVariable n).
Proof.
  intros Hx. split; [apply evaluate_Raise_cases, Hx|]. split.
  - intros msg ->.
    destruct (evaluate_Raise_cases e m _ Hx) as [?|(n & _ & _ & ?)]; discriminate.
  - intros Hwf. exact (evaluate_Raise_unbound e m x Hwf Hx).
Qed.

Lemma evaluate_exceptions_witness :
  ∃ n, occurs n (And [Symbol (pystr "A"); Not (Symbol (pystr "B"))])
       ∧ ({[pystr "A" := PBool true]} : gmap str pyval) !! n = None
       ∧ UnboundVariable (pystr "B") = UnboundVariable n.
Proof.
  apply (evaluate_exceptions
           (And [Symbol (pystr "A"); Not (Symbol (pystr "B"))])
           {[pystr "A" := PBool true]} (UnboundVariable (pystr "B"))).
  - reflexivity.
  - reflexivity.
Defined.

(** ** Laws of the connectives *)

Lemma all_of_append {A} (f : A → result bool) (l1 l2 : list A) :
  all_of f (l1 ++ l2)
  = (all_of f l1 ≫= λ b : bool, if b then all_of f l2 else Ok false).
Proof.
  induction l1 as [|x l1 IH]; [reflexivity|].
  simpl. destruct (f x) as [[|]|e]; simpl; [exact IH | reflexivity | reflexivity].
Qed.

Lemma all_of_singleton {A} (f : A → result bool) (x : A) :
  all_of f [x] = f x.
Proof. simpl. destruct (f x) as [[|]|e]; reflexivity. Qed.

(** X11.  Evaluation, exceptions included, obeys the laws of the
    connectives: a double negation evaluates like its operand, and an
    implication like the negation of "antecedent and not consequent". *)
Theorem evaluate_negation_laws (a b : Sentence) (m : gmap str pyval) :
  evaluate (Not (Not a)) m = evaluate a m
  ∧ evaluate (Implication a b) m = evaluate (Not (And [a; Not b])) m.
Proof.
  split.
  - simpl. destruct (evaluate a m) as [[|]|e]; reflexivity.
  - simpl. destruct (evaluate a m) as [[|]|e]; simpl; try reflexivity.
    destruct (evaluate b m) as [[|]|e]; reflexivity.
Qed.

(** X12.  Conjunction is associative for evaluation, exceptions included:
    a conjunction over two lists put end to end evaluates the first list
    and, if that is true, the second; a conjunction nested as first
    conjunct may be flattened; a conjunction of one conjunct evaluates
    like that conjunct. *)
Theorem evaluate_And_append (cs ds : list Sentence) (m : gmap str pyval) :
  evaluate (And (cs ++ ds)) m
  = (evaluate (And cs) m ≫= λ b : bool, if b then evaluate (And ds) m else Ok false)
  ∧ evaluate (And (And cs :: ds)) m = evaluate (And (cs ++ ds)) m
  ∧ (∀ c, evaluate (And [c]) m = evaluate c m).
Proof.
  split; [|split].
  - rewrite !evaluate_And. apply all_of_append.
  - rewrite (evaluate_And (cs ++ ds)), all_of_append. reflexivity.
  - intros c. rewrite evaluate_And.
    exact (all_of_singleton (λ c, evaluate c m) c).
Qed.

Lemma all_of_bool {A} (f : A → result bool) (l : list A) :
  Forall (λ x, ∃ b, f x = Ok b) l → ∃ b, all_of f l = Ok b.
Proof.
  induction 1 as [|x l [b Hx] _ [b' IH]]; [exists true; reflexivity|].
  simpl. rewrite Hx. simpl. destruct b; [exists b'; exact IH | exists false; reflexivity].
Qed.

Lemma all_of_true_Permutation {A} (f : A → result bool) (l1 l2 : list A) :
  l1 ≡ₚ l2 → all_of f l1 = Ok true → all_of f l2 = Ok true.
Proof.
  intros Hp. rewrite !all_of_true. apply Permutation_Forall, Hp.
Qed.

(** X13.  The order of the conjuncts does not influence the value of a
    conjunction: two conjunctions with the same conjuncts in different
    orders cannot evaluate to different booleans, and when every conjunct
    evaluates without exception they give the same result.  The order can
    only decide whether an exception is raised. *)
Theorem evaluate_And_Permutation (cs ds : list Sentence) (m : gmap str pyval) :
  cs ≡ₚ ds →
  (∀ b b', evaluate (And cs) m = Ok b → evaluate (And ds) m = Ok b' → b = b')
  ∧ (Forall (λ c, ∃ b, evaluate c m = Ok b) cs →
     evaluate (And cs) m = evaluate (And ds) m).
Proof.
  intros Hp. rewrite !evaluate_And.
  assert (Hvalues : ∀ b b',
             all_of (λ c, evaluate c m) cs = Ok b →
             all_of (λ c, evaluate c m) ds = Ok b' → b = b').
  { intros [|] [|] Hcs Hds; try reflexivity.
    - apply (all_of_true_Permutation _ _ _ Hp) in Hcs. congruence.
    - symmetry in Hp. apply (all_of_true_Permutation _ _ _ Hp) in Hds. congruence. }
  split; [exact Hvalues|].
  intros Hall.
  destruct (all_of_bool _ _ Hall) as [b Hb].
  destruct (all_of_bool (λ c, evaluate c m) ds) as [b' Hb'].
  { eapply Permutation_Forall; eassumption. }
  rewrite Hb, Hb'. f_equal. exact (Hvalues b b' Hb Hb').
Qed.

Lemma evaluate_And_Permutation_witness :
  evaluate (And [Symbol (pystr "A"); Symbol (pystr "B")])
    (<[pystr "A" := PBool true]> {[pystr "B" := PBool false]})
  = evaluate (And [Symbol (pystr "B"); Symbol (pystr "A")])
      (<[pystr "A" := PBool true]> {[pystr "B" := PBool false]}).
Proof.
  apply evaluate_And_Permutation.
  - apply perm_swap.
  - repeat constructor; eexists; reflexivity.
Defined.

(** The order decides about exceptions: a false conjunct hides an unbound
    one that follows it, not one that precedes it. *)
Example evaluate_And_order_exception :
  evaluate (And [Symbol (pystr "A"); Symbol (pystr "B")])
    {[pystr "A" := PBool false]} = Ok false
  ∧ evaluate (And [Symbol (pystr "B"); Symbol (pystr "A")])
      {[pystr "A" := PBool false]} = Raise (UnboundVariable (pystr "B")).
Proof. split; reflexivity. Qed.

(** ** Growing a conjunction with [add] *)




(** ** When [symbols] returns *)

Lemma comprehension_Raise {A B} (f : A → result B) (good : A → bool)
    (l : list A) (x : exn) :
  Forall (λ a, (good a = true → ∃ b, f a = Ok b)
               ∧ (good a = false → f a = Raise x)) l →
  forallb good l = false → comprehension f l = Raise x.
Proof.
  induction 1 as [|a l [Hgood Hbad] _ IH]; [discriminate|].
  simpl. destruct (good a) eqn:Ha; simpl.
  - destruct (Hgood eq_refl) as [b ->]. simpl. intros Hl.
    rewrite (IH Hl). reflexivity.
  - intros _. rewrite (Hbad eq_refl). reflexivity.
Qed.

Lemma symbols_cases (e : Sentence) :
  (no_empty_And e = true → ∃ s, symbols e = Ok s ∧ ∀ n, n ∈ s ↔ occurs n e)
  ∧ (no_empty_And e = false →
     symbols e
     = Raise (TypeError (pystr "unbound method set.union() needs an argument"))).
Proof.
  induction e as [i|name|o IH|cs IH|a c IHa IHc] using Sentence_induction.
  - split; [|discriminate]. intros _. exists ∅. split; [reflexivity|].
    intros n. split; [intros Hn; set_solver | intros Hn; inversion Hn].
  - split; [|discriminate]. intros _. exists {[name]}. split; [reflexivity|].
    intros n. rewrite elem_of_singleton. split.
    + intros ->. constructor.
    + intros Hn. inversion Hn. reflexivity.
  - destruct IH as [IHok IHbad]. split; [|exact IHbad].
    intros Hwf. destruct (IHok Hwf) as (s & Hs & Hmem).
    exists s. split; [exact Hs|]. intros n. rewrite Hmem. split.
    + apply occurs_Not.
    + intros Hn. inversion Hn. assumption.
  - split.
    + cbn [no_empty_And]. intros [Hlen Hall]%andb_prop.
      assert (Hne : cs ≠ []) by (intros ->; discriminate).
      assert (Hsets : ∃ sets,
                 Forall2 (λ c s, symbols c = Ok s ∧ ∀ n, n ∈ s ↔ occurs n c)
                         cs sets).
      { clear Hne Hlen. induction IH as [|c cs [Hc _] _ IHcs].
        - exists []. constructor.
        - simpl in Hall. apply andb_prop in Hall as [Hwc Hwcs].
          destruct (Hc Hwc) as (s & Hs). destruct (IHcs Hwcs) as (sets & Hsets).
          exists (s :: sets). constructor; assumption. }
      destruct Hsets as (sets & Hsets). exists (⋃ sets). split.
      * apply symbols_And; [exact Hne|].
        eapply Forall2_impl; [exact Hsets|]. intros c s [Hs _]. exact Hs.
      * intros n. rewrite elem_of_union_list. split.
        -- intros (s & Hs & Hn).
           destruct (proj1 (list_elem_of_lookup sets s) Hs) as (k & Hk).
           destruct (Forall2_lookup_r _ _ _ _ _ Hsets Hk) as (c & Hc & _ & Hmem).
           apply occurs_And with c; [eapply list_elem_of_lookup_2, Hc|].
           apply Hmem, Hn.
        -- intros Hn. inversion Hn as [| |? c Hc Hoc| |]; subst.
           destruct (proj1 (list_elem_of_lookup cs c) Hc) as (k & Hk).
           destruct (Forall2_lookup_l _ _ _ _ _ Hsets Hk) as (s & Hs & _ & Hmem).
           exists s. split; [eapply list_elem_of_lookup_2, Hs|].
           apply Hmem, Hoc.
    + cbn [no_empty_And]. intros Hbad.
      change (symbols (And cs))
        with (comprehension symbols cs ≫= set_union_star).
      destruct cs as [|c cs]; [reflexivity|].
      simpl (negb _) in Hbad. rewrite andb_true_l in Hbad.
      rewrite (comprehension_Raise symbols no_empty_And (c :: cs)
                 (TypeError (pystr "unbound method set.union() needs an argument")));
        [reflexivity| |exact Hbad].
      eapply Forall_impl; [exact IH|]. intros d [Hok Hraise]. split.
      * intros Hd. destruct (Hok Hd) as (s & Hs & _). exists s. exact Hs.
      * exact Hraise.
  - destruct IHa as [IHaok IHabad], IHc as [IHcok IHcbad]. split.
    + cbn [no_empty_And]. intros [Hwa Hwc]%andb_prop.
      destruct (IHaok Hwa) as (sa & Hsa & Hma).
      destruct (IHcok Hwc) as (sc & Hsc & Hmc).
      exists (sa ∪ sc). split; [apply symbols_Implication; assumption|].
      intros n. rewrite elem_of_union, Hma, Hmc. split.
      * intros [?|?]; [apply occurs_antecedent | apply occurs_consequent];
          assumption.
      * intros Hn. inversion Hn; tauto.
    + cbn [no_empty_And]. intros Hbad. simpl.
      destruct (no_empty_And a) eqn:Ha.
      * destruct (IHaok eq_refl) as (sa & -> & _). simpl.
        rewrite (IHcbad Hbad). reflexivity.
      * rewrite (IHabad eq_refl). reflexivity.
Qed.

(** X15.  [symbols] returns a set exactly on the expressions that hold no
    conjunction without conjuncts, at any depth, and the set is then that
    of the variables occurring in the expression; on every other
    expression it raises the [TypeError] of [set.union]. *)
Theorem symbols_total_iff (e : Sentence) :
  ((∃ s, symbols e = Ok s) ↔ no_empty_And e = true)
  ∧ (∀ s, symbols e = Ok s → ∀ n, n ∈ s ↔ occurs n e)
  ∧ (no_empty_And e = false →
     symbols e
     = Raise (TypeError (pystr "unbound method set.union() needs an argument"))).
Proof.
  destruct (symbols_cases e) as [Hok Hbad]. split; [|split].
  - split.
    + intros [s Hs]. destruct (no_empty_And e); [reflexivity|].
      rewrite (Hbad eq_refl) in Hs. discriminate.
    + intros Hwf. destruct (Hok Hwf) as (s & Hs & _). exists s. exact Hs.
  - intros s Hs. destruct (no_empty_And e) eqn:Hwf.
    + destruct (Hok eq_refl) as (s' & Hs' & Hmem).
      rewrite Hs in Hs'. injection Hs' as <-. exact Hmem.
    + rewrite (Hbad eq_refl) in Hs. discriminate.
  - exact Hbad.
Qed.

Lemma symbols_total_iff_witness :
  symbols (Implication (Symbol (pystr "A")) (Not (And [Symbol (pystr "B"); And []])))
  = Raise (TypeError (pystr "unbound method set.union() needs an argument"))
  ∧ ∃ s, symbols (And [BaseSentence 0; Symbol (pystr "A")]) = Ok s.
Proof.
  split.
  - apply (symbols_total_iff
             (Implication (Symbol (pystr "A"))
                          (Not (And [Symbol (pystr "B"); And []])))).
    reflexivity.
  - apply (proj1 (symbols_total_iff (And [BaseSentence 0; Symbol (pystr "A")]))).
    reflexivity.
Defined.

(** ** [==] as a relation *)

Lemma And_singleton_neq (c : Sentence) : And [c] ≠ c.
Proof.
  induction c as [i|name|o IH|cs IH|a d IHa IHd] using Sentence_induction;
    try discriminate.
  intros Heq. injection Heq as Hcs. rewrite <- Hcs in IH.
  apply Forall_cons_1 in IH as [Habs _]. apply Habs. rewrite <- Hcs at 2. reflexivity.
Qed.

Section Equality.
Context `{Unicode} `{PyHash}.

(** X16.  [==] is an equivalence relation on sentences, and equal
    sentences cannot be told apart: they evaluate, render, hash and
    collect their symbols alike. *)
Theorem Sentence_eq_equivalence (e1 e2 e3 : Sentence) :
  Sentence_eq e1 e1 = true
  ∧ Sentence_eq e1 e2 = Sentence_eq e2 e1
  ∧ (Sentence_eq e1 e2 = true → Sentence_eq e2 e3 = true →
     Sentence_eq e1 e3 = true)
  ∧ (Sentence_eq e1 e2 = true →
     (∀ m, evaluate e1 m = evaluate e2 m)
     ∧ formula e1 = formula e2
     ∧ symbols e1 = symbols e2
     ∧ Sentence_hash e1 = Sentence_hash e2).
Proof.
  split; [apply Sentence_eq_true_iff; reflexivity|]. split; [|split].
  - destruct (Sentence_eq e1 e2) eqn:H12.
    + apply Sentence_eq_true_iff in H12 as ->.
      symmetry. apply Sentence_eq_true_iff. reflexivity.
    + destruct (Sentence_eq e2 e1) eqn:H21; [|reflexivity].
      apply Sentence_eq_true_iff in H21 as ->.
      rewrite (proj2 (Sentence_eq_true_iff e1 e1) eq_refl) in H12. discriminate.
  - intros ->%Sentence_eq_true_iff. exact id.
  - intros ->%Sentence_eq_true_iff. repeat split.
Qed.

(** X17.  A conjunction of a single conjunct renders, evaluates and
    collects symbols exactly like that conjunct, yet [==] tells the two
    apart: sentences with the same formula need not be equal. *)
Theorem And_singleton (c : Sentence) (m : gmap str pyval) :
  formula (And [c]) = formula c
  ∧ evaluate (And [c]) m = evaluate c m
  ∧ symbols (And [c]) = symbols c
  ∧ Sentence_eq (And [c]) c = false
  ∧ Sentence_eq c (And [c]) = false.
Proof.
  split; [reflexivity|]. split.
  { rewrite evaluate_And. exact (all_of_singleton (λ c, evaluate c m) c). }
  split.
  { change (symbols (And [c]))
      with (comprehension symbols [c] ≫= set_union_star).
    simpl. destruct (symbols c); reflexivity. }
  split.
  - destruct (Sentence_eq (And [c]) c) eqn:Heq; [|reflexivity].
    apply Sentence_eq_true_iff in Heq. destruct (And_singleton_neq c Heq).
  - destruct (Sentence_eq c (And [c])) eqn:Heq; [|reflexivity].
    apply Sentence_eq_true_iff in Heq. symmetry in Heq.
    destruct (And_singleton_neq c Heq).
Qed.
End Equality.

Lemma Sentence_eq_equivalence_witness :
  Sentence_eq (Not (Symbol (pystr "A"))) (Not (Symbol (pystr "A"))) = true
  ∧ @formula latin1_letter (Not (Symbol (pystr "A")))
    = @formula latin1_letter (Not (Symbol (pystr "A"))).
Proof.
  split.
  - apply (proj1 (proj2 (proj2 (@Sentence_eq_equivalence latin1_letter sample_hash
                                  (Not (Symbol (pystr "A")))
                                  (Not (Symbol (pystr "A")))
                                  (Not (Symbol (pystr "A"))))))); reflexivity.
  - apply (proj2 (proj2 (proj2 (@Sentence_eq_equivalence latin1_letter sample_hash
                                  (Not (Symbol (pystr "A")))
                                  (Not (Symbol (pystr "A")))
                                  (Not (Symbol (pystr "A"))))))).
    reflexivity.
Defined.

(** ** The model built from a scenario *)

Lemma key_mapping_keys_NoDup : NoDup (key_mapping.*1).
Proof. apply (bool_decide_unpack _). vm_compute. exact I. Qed.

Lemma key_lookup_elem_of (key name : str) :
  key_lookup key = Some name ↔ (key, name) ∈ key_mapping.
Proof.
  unfold key_lookup. split.
  - apply elem_of_list_to_map_2.
  - apply elem_of_list_to_map_1, key_mapping_keys_NoDup.
Qed.

Lemma name_cases (name : str) :
  (∃ key, key_lookup key = Some name) ∨ (∀ key, key_lookup key ≠ Some name).
Proof.
  destruct (decide (name ∈ key_mapping.*2)) as [Hin|Hout].
  - left. apply list_elem_of_fmap in Hin as ([key name'] & -> & Hin).
    exists key. apply key_lookup_elem_of, Hin.
  - right. intros key Hkey. apply Hout.
    apply list_elem_of_fmap. exists (key, name).
    split; [reflexivity | apply key_lookup_elem_of, Hkey].
Qed.

(** X18.  The model holds, under each variable name, the value the
    scenario holds under the key renamed to it, whatever the order of the
    scenario's items; it holds nothing else, and keys unknown to
    [key_mapping] are dropped. *)
Theorem build_model_spec (scenario : gmap str pyval) :
  (∀ key name, key_lookup key = Some name →
     build_model scenario !! name = scenario !! key)
  ∧ (∀ name v, build_model scenario !! name = Some v →
       ∃ key, key_lookup key = Some name ∧ scenario !! key = Some v)
  ∧ (∀ key v, key_lookup key = None →
       build_model (<[key := v]> scenario) = build_model scenario).
Proof.
  split; [apply build_model_lookup|]. split.
  - intros name v Hv. destruct (name_cases name) as [[key Hkey]|Hnone].
    + exists key. split; [exact Hkey|].
      rewrite <- (build_model_lookup scenario key name Hkey). exact Hv.
    + rewrite (build_model_absent scenario name Hnone) in Hv. discriminate.
  - intros key v Hkey. apply map_eq. intros name.
    destruct (name_cases name) as [[key' Hkey']|Hnone].
    + rewrite !(build_model_lookup _ key' name Hkey').
      apply lookup_insert_ne. intros ->. congruence.
    + rewrite !build_model_absent by exact Hnone. reflexivity.
Qed.

Lemma build_model_spec_witness :
  build_model {[pystr "speed_limit" := PBool true]} !! pystr "SpeedLimit"
  = ({[pystr "speed_limit" := PBool true]} : gmap str pyval) !! pystr "speed_limit"
  ∧ build_model (<[pystr "weather" := PStr (pystr "rain")]>
                   {[pystr "speed_limit" := PBool true]})
    = build_model {[pystr "speed_limit" := PBool true]}.
Proof.
  split.
  - apply (build_model_spec {[pystr "speed_limit" := PBool true]}).
    vm_compute. reflexivity.
  - apply (build_model_spec {[pystr "speed_limit" := PBool true]}).
    vm_compute. reflexivity.
Defined.

Lemma build_model_agree (s1 s2 : gmap str pyval) :
  (∀ key, is_Some (key_lookup key) →
     truthy <$> s1 !! key = truthy <$> s2 !! key) →
  ∀ name, truthy <$> build_model s1 !! name = truthy <$> build_model s2 !! name.
Proof.
  intros Hagree name. destruct (name_cases name) as [[key Hkey]|Hnone].
  - rewrite !(build_model_lookup _ key name Hkey).
    apply Hagree. exists name. exact Hkey.
  - rewrite !build_model_absent by exact Hnone. reflexivity.
Qed.

(** ** What [check_violations] depends on *)

(** X19.  The violations reported for a scenario depend only on the keys
    known to [key_mapping], and for those only on whether they are present
    and on the truthiness of their values: other keys, and the difference
    between a value and its boolean, are without effect. *)
Theorem check_violations_depends_on (self : TrafficRules)
    (s1 s2 : gmap str pyval) :
  (∀ key, is_Some (key_lookup key) →
     truthy <$> s1 !! key = truthy <$> s2 !! key) →
  check_violations self s1 = check_violations self s2.
Proof.
  intros Hagree. unfold check_violations. rewrite !check_rules_spec.
  do 3 f_equal. apply filter_ext. intros [rule msg]. unfold fires. simpl.
  rewrite (evaluate_agree rule (build_model s1) (build_model s2)); [reflexivity|].
  intros n _. apply build_model_agree, Hagree.
Qed.

Lemma check_violations_depends_on_witness :
  check_violations TrafficRules_init
    (<[pystr "speed_limit" := PInt 1]>
       (<[pystr "residential" := PStr (pystr "yes")]>
          {[pystr "driver" := PStr (pystr "Anne")]}))
  = check_violations TrafficRules_init
      (<[pystr "speed_limit" := PBool true]>
         {[pystr "residential" := PBool true]}).
Proof.
  apply check_violations_depends_on.
  intros key [name Hkey]. apply key_lookup_elem_of in Hkey.
  unfold key_mapping in Hkey.
  repeat (apply elem_of_cons in Hkey as [[= -> ->]|Hkey]; [vm_compute; reflexivity|]).
  inversion Hkey.
Defined.

(** X20.  Rules are checked independently of each other, and the call
    never raises: the violations of a catalogue made of two parts are the
    violations of the first part followed by those of the second, and
    there are never more violations than rules. *)
Theorem check_violations_app (rs1 rs2 : list (Sentence * str))
    (scenario : gmap str pyval) :
  ∃ v1 v2,
    check_violations {| rules := rs1 |} scenario = Ok v1
    ∧ check_violations {| rules := rs2 |} scenario = Ok v2
    ∧ check_violations {| rules := rs1 ++ rs2 |} scenario = Ok (v1 ++ v2)
    ∧ (length v1 ≤ length rs1)%nat.
Proof.
  unfold check_violations. simpl. rewrite !check_rules_spec. simpl.
  eexists _, _. split; [reflexivity|]. split; [reflexivity|]. split.
  - rewrite List.filter_app, map_app. reflexivity.
  - rewrite length_map. apply List.filter_length_le.
Qed.

(** ** The catalogue as a decision table *)

Lemma fires_true_iff (model : gmap str pyval) (r : Sentence * str) :
  fires model r = true ↔ evaluate r.1 model = Ok true.
Proof.
  unfold fires. destruct (evaluate r.1 model) as [[|]|e]; split;
    try reflexivity; discriminate.
Qed.

Lemma evaluate_Symbol_true (model : gmap str pyval) (name : str) :
  evaluate (Symbol name) model = Ok true ↔ truthy <$> model !! name = Some true.
Proof.
  simpl. destruct (model !! name) as [v|]; simpl.
  - split; congruence.
  - split; discriminate.
Qed.

Lemma evaluate_Not_Symbol_true (model : gmap str pyval) (name : str) :
  evaluate (Not (Symbol name)) model = Ok true
  ↔ truthy <$> model !! name = Some false.
Proof.
  simpl. destruct (model !! name) as [v|]; simpl.
  - destruct (truthy v); simpl; split; congruence.
  - split; discriminate.
Qed.

(** A conjunction of variables and negated variables produces its label
    exactly when the former are bound to true and the latter to false
    values. *)
Lemma fires_literals (model : gmap str pyval) (pos neg : list str) (label : str) :
  fires model (And (map Symbol pos ++ map (λ n, Not (Symbol n)) neg), label)
  = forallb (λ n, bool_decide (truthy <$> model !! n = Some true)) pos
    && forallb (λ n, bool_decide (truthy <$> model !! n = Some false)) neg.
Proof.
  apply eq_true_iff_eq.
  rewrite fires_true_iff, andb_true_iff, !forallb_forall. simpl fst.
  rewrite evaluate_And, all_of_true, Forall_app, !Forall_forall. split.
  - intros [Hpos Hneg]. split; intros n Hn; apply bool_decide_eq_true.
    + apply evaluate_Symbol_true, Hpos, list_elem_of_In, in_map, Hn.
    + apply evaluate_Not_Symbol_true, Hneg, list_elem_of_In.
      exact (in_map (λ n, Not (Symbol n)) neg n Hn).
  - intros [Hpos Hneg]. split; intros c Hc;
      apply list_elem_of_In, in_map_iff in Hc as (n & <- & Hn).
    + apply evaluate_Symbol_true. exact (bool_decide_eq_true_1 _ (Hpos n Hn)).
    + apply evaluate_Not_Symbol_true. exact (bool_decide_eq_true_1 _ (Hneg n Hn)).
Qed.

Lemma catalogue_table : _initialize_rules = map rule_of violation_table.
Proof. vm_compute. reflexivity. Qed.

Lemma name_of_known (key : string) :
  is_Some (key_lookup (pystr key)) → key_lookup (pystr key) = Some (name_of key).
Proof. unfold name_of. intros [name ->]. reflexivity. Qed.

Lemma violation_table_known :
  Forall (λ row : list string * list string * string,
            Forall (λ key, is_Some (key_lookup (pystr key))) (row.1.1 ++ row.1.2))
         violation_table.
Proof. repeat constructor; vm_compute; eexists; reflexivity. Qed.

Lemma forallb_map_compose {A B} (f : A → B) (p : B → bool) (l : list A) :
  forallb p (map f l) = forallb (λ x, p (f x)) l.
Proof.
  induction l as [|x l IH]; [reflexivity|]. simpl. rewrite IH. reflexivity.
Qed.

Lemma forallb_agree {A} (p q : A → bool) (l : list A) :
  (∀ x, In x l → p x = q x) → forallb p l = forallb q l.
Proof.
  induction l as [|x l IH]; [reflexivity|]. simpl. intros Hpq.
  rewrite (Hpq x (or_introl eq_refl)), IH; [reflexivity|].
  intros y Hy. apply Hpq. right. exact Hy.
Qed.

Lemma fires_rule_of (scenario : gmap str pyval)
    (row : list string * list string * string) :
  Forall (λ key, is_Some (key_lookup (pystr key))) (row.1.1 ++ row.1.2) →
  fires (build_model scenario) (rule_of row) = reported scenario row.
Proof.
  destruct row as [[pos neg] label]. simpl. intros [Hpos Hneg]%Forall_app.
  unfold rule_of, reported. simpl.
  rewrite <- (map_map name_of Symbol), <- (map_map name_of (λ n, Not (Symbol n))).
  rewrite fires_literals, !forallb_map_compose. f_equal.
  - apply forallb_agree. intros key Hkey.
    rewrite Forall_forall in Hpos.
    apply list_elem_of_In, Hpos, name_of_known in Hkey.
    unfold holds. rewrite (build_model_lookup scenario _ _ Hkey). reflexivity.
  - apply forallb_agree. intros key Hkey.
    rewrite Forall_forall in Hneg.
    apply list_elem_of_In, Hneg, name_of_known in Hkey.
    unfold holds. rewrite (build_model_lookup scenario _ _ Hkey). reflexivity.
Qed.

Lemma filter_rule_of (scenario : gmap str pyval)
    (table : list (list string * list string * string)) :
  Forall (λ row : list string * list string * string,
            Forall (λ key, is_Some (key_lookup (pystr key))) (row.1.1 ++ row.1.2))
         table →
  map snd (List.filter (fires (build_model scenario)) (map rule_of table))
  = map (λ row, pystr row.2) (List.filter (reported scenario) table).
Proof.
  induction 1 as [|row table Hrow _ IH]; [reflexivity|].
  cbn [map List.filter]. rewrite (fires_rule_of scenario row Hrow).
  destruct (reported scenario row); [|exact IH].
  cbn [map]. f_equal. exact IH.
Qed.

(** X21.  With the built-in catalogue, [check_violations] amounts to a
    decision table read directly on the scenario: a label is reported
    exactly when every key of its rule is present, the keys of its plain
    variables hold true values and the keys of its negated variables hold
    false values; labels come in catalogue order. *)
Theorem check_violations_table (scenario : gmap str pyval) :
  check_violations TrafficRules_init scenario = Ok (violations_of scenario).
Proof.
  unfold check_violations, violations_of. rewrite check_rules_spec.
  change (rules TrafficRules_init) with _initialize_rules.
  rewrite catalogue_table, app_nil_l.
  rewrite (filter_rule_of scenario violation_table violation_table_known).
  reflexivity.
Qed.

(** The lane change rule on its own: reported when the signal was not
    used, not reported when it is unknown whether it was. *)
Example lane_change_table :
  violations_of (<[pystr "signal_change" := PBool true]>
                   {[pystr "signal_used" := PBool false]})
  = [pystr "Lane change violation"]
  ∧ violations_of {[pystr "signal_change" := PBool true]} = [].
Proof. split; vm_compute; reflexivity. Qed.

Lemma catalogue_names_known :
  Forall (λ r : Sentence * str,
            well_formed r.1 = true ∧ ∀ n, occurs n r.1 → n ∈ key_mapping.*2)
         (rules TrafficRules_init).
Proof.
  unfold TrafficRules_init, _initialize_rules, speed_limit, residential, highway,
    red_light, at_intersection, vehicle_moving, signal_change, signal_used,
    one_way, wrong_direction, stop_sign, complete_stop, no_parking, is_parked,
    no_overtaking, is_overtaking, location_a, location_b.
  simpl rules.
  repeat (apply Forall_cons_2;
          [split; [reflexivity|]; intros n Hn; cbn [fst] in Hn;
           repeat invert_occurs;
           apply (bool_decide_unpack _); vm_compute; exact I|]).
  apply Forall_nil_2.
Qed.

(** X22.  When the scenario gives a value to every key of [key_mapping],
    no rule of the built-in catalogue is skipped: each of them evaluates
    to a boolean.  Every variable of the catalogue can be supplied through
    a scenario key. *)
Theorem complete_scenario_evaluates (scenario : gmap str pyval)
    (rule : Sentence) (msg : str) :
  complete scenario → (rule, msg) ∈ rules TrafficRules_init →
  ∃ b, evaluate rule (build_model scenario) = Ok b.
Proof.
  intros Hcomplete Hin.
  pose proof catalogue_names_known as Hknown. rewrite Forall_forall in Hknown.
  destruct (Hknown (rule, msg) Hin) as [Hwf Hnames].
  apply evaluate_total; [exact Hwf|]. intros n Hn.
  apply Hnames, list_elem_of_fmap in Hn as ([key name] & -> & Hkey).
  apply key_lookup_elem_of in Hkey. cbn [snd].
  rewrite (build_model_lookup scenario key name Hkey).
  apply Hcomplete. exists name. exact Hkey.
Qed.

Lemma normal_highway_driving_complete : complete normal_highway_driving.
Proof.
  intros key [name Hkey]. apply key_lookup_elem_of in Hkey.
  unfold key_mapping in Hkey.
  repeat (apply elem_of_cons in Hkey as [[= -> ->]|Hkey];
          [vm_compute; eexists; reflexivity|]).
  inversion Hkey.
Qed.

Lemma complete_scenario_evaluates_witness :
  ∃ b, evaluate (And [stop_sign; Not complete_stop])
         (build_model normal_highway_driving) = Ok b.
Proof.
  apply (complete_scenario_evaluates normal_highway_driving
           (And [stop_sign; Not complete_stop]) (pystr "Stop sign violation")).
  - exact normal_highway_driving_complete.
  - unfold TrafficRules_init, _initialize_rules. simpl rules.
    do 5 apply list_elem_of_further. apply list_elem_of_here.
Defined.

(** ** [repr] determines the expression *)

Section Repr.
Context `{Unicode} `{ObjectRepr}.
Hypothesis lparen_no_letter : is_letter lparen = false.
Hypothesis rparen_no_letter : is_letter rparen = false.
Hypothesis comma_no_letter : is_letter 44%N = false.

Lemma delimited_letter (c : N) (r : str) :
  is_letter c = true → ¬ delimited (c :: r).
Proof.
  intros Hc [Hnil|(r' & [Hr|Hr])]; [discriminate| |];
    injection Hr as -> _; congruence.
Qed.

Lemma letters_unique (n1 n2 r1 r2 : str) :
  forallb is_letter n1 = true → forallb is_letter n2 = true →
  delimited r1 → delimited r2 →
  n1 ++ r1 = n2 ++ r2 → n1 = n2 ∧ r1 = r2.
Proof.
  revert n2. induction n1 as [|c1 n1 IH]; intros [|c2 n2]; simpl;
    intros H1 H2 Hr1 Hr2 Heq.
  - split; [reflexivity | exact Heq].
  - apply andb_prop in H2 as [Hc _]. subst r1.
    destruct (delimited_letter c2 _ Hc Hr1).
  - apply andb_prop in H1 as [Hc _]. subst r2.
    destruct (delimited_letter c1 _ Hc Hr2).
  - apply andb_prop in H1 as [_ H1]. apply andb_prop in H2 as [_ H2].
    injection Heq as -> Heq.
    destruct (IH n2 H1 H2 Hr1 Hr2 Heq) as [-> ->]. split; reflexivity.
Qed.

(** A run of letters followed by a delimiter is never a keyword followed by
    an opening parenthesis. *)
Lemma letters_no_keyword (word n r rest : str) :
  Forall (λ c, c ≠ 44%N ∧ c ≠ rparen) word →
  n ≠ [] → forallb is_letter n = true → delimited r →
  n ++ r ≠ word ++ lparen :: rest.
Proof.
  intros Hword. revert n.
  induction Hword as [|w word [Hw1 Hw2] Hword IH]; intros [|c n] Hne Hn Hr Heq;
    try contradiction; simpl in Hn; apply andb_prop in Hn as [Hc Hn].
  - injection Heq as -> _. congruence.
  - injection Heq as -> Heq. destruct n as [|c' n].
    + simpl in Heq. subst r.
      destruct Hr as [Hnil|(r' & [Hr|Hr])].
      * destruct word; discriminate.
      * destruct Hword as [|w' word [Hw' _] _]; [discriminate|].
        injection Hr as Hr _. contradiction.
      * destruct Hword as [|w' word [_ Hw'] _]; [discriminate|].
        injection Hr as Hr _. contradiction.
    + apply (IH (c' :: n)); [discriminate | exact Hn | exact Hr | exact Heq].
Qed.

Lemma repr_Not (o : Sentence) :
  repr (Not o) = [78; 111; 116]%N ++ lparen :: (repr o ++ [rparen]).
Proof. reflexivity. Qed.

Lemma repr_And (cs : list Sentence) :
  repr (And cs)
  = [65; 110; 100]%N ++ lparen :: (join [44; 32]%N (map repr cs) ++ [rparen]).
Proof. reflexivity. Qed.

Lemma repr_Implication (a c : Sentence) :
  repr (Implication a c)
  = [73; 109; 112; 108; 105; 99; 97; 116; 105; 111; 110]%N
    ++ lparen :: (repr a ++ [44; 32]%N ++ repr c ++ [rparen]).
Proof. reflexivity. Qed.

Lemma isalpha_letters (n : str) :
  isalpha n = true → n ≠ [] ∧ forallb is_letter n = true.
Proof.
  unfold isalpha. intros [Hne Hn]%andb_prop. split; [|exact Hn].
  intros ->. discriminate.
Qed.

(** The [repr] of an expression with alphabetic names begins with a
    character that is no delimiter. *)
Lemma repr_head (e : Sentence) :
  alphabetic e = true → ∃ c rest, repr e = c :: rest ∧ c ≠ 44%N ∧ c ≠ rparen.
Proof.
  destruct e as [i|n|o|cs|a c]; intros He.
  - discriminate.
  - apply isalpha_letters in He as [Hne Hn].
    destruct n as [|c n]; [contradiction|].
    simpl in Hn. apply andb_prop in Hn as [Hc _].
    exists c, n. repeat split; [|]; intros ->; congruence.
  - rewrite repr_Not. eexists _, _. repeat split; discriminate.
  - rewrite repr_And. eexists _, _. repeat split; discriminate.
  - rewrite repr_Implication. eexists _, _. repeat split; discriminate.
Qed.

(** What follows the first conjunct inside [And(...)]. *)
Lemma join_tail_delimited (parts : list str) (r : str) :
  delimited (concat (map (λ q, [44; 32]%N ++ q) parts) ++ rparen :: r).
Proof.
  right. destruct parts as [|p parts]; simpl.
  - exists r. right. reflexivity.
  - eexists. left. reflexivity.
Qed.

Ltac keyword_chars :=
  repeat (apply Forall_cons_2; [split; discriminate|]); apply Forall_nil_2.

Lemma repr_unique (e1 : Sentence) :
  ∀ e2 r1 r2,
    alphabetic e1 = true → alphabetic e2 = true →
    delimited r1 → delimited r2 →
    repr e1 ++ r1 = repr e2 ++ r2 → e1 = e2 ∧ r1 = r2.
Proof.
  induction e1 as [i|n1|o1 IH|cs IH|a1 c1 IHa IHc] using Sentence_induction;
    intros e2 r1 r2 H1 H2 Hr1 Hr2 Heq.
  - discriminate.
  - apply isalpha_letters in H1 as [Hne1 Hn1].
    destruct e2 as [j|n2|o2|ds|a2 c2]; [discriminate| | | |].
    + apply isalpha_letters in H2 as [_ Hn2]. cbn [repr] in Heq.
      destruct (letters_unique n1 n2 r1 r2 Hn1 Hn2 Hr1 Hr2 Heq) as [-> ->].
      split; reflexivity.
    + rewrite repr_Not in Heq. cbn [repr] in Heq.
      rewrite <- app_assoc in Heq.
      exfalso. revert Heq. apply letters_no_keyword; try assumption.
      keyword_chars.
    + rewrite repr_And in Heq. cbn [repr] in Heq.
      rewrite <- app_assoc in Heq.
      exfalso. revert Heq. apply letters_no_keyword; try assumption.
      keyword_chars.
    + rewrite repr_Implication in Heq. cbn [repr] in Heq.
      rewrite <- app_assoc in Heq.
      exfalso. revert Heq. apply letters_no_keyword; try assumption.
      keyword_chars.
  - destruct e2 as [j|n2|o2|ds|a2 c2]; [discriminate| | | |].
    + apply isalpha_letters in H2 as [Hne2 Hn2].
      rewrite repr_Not in Heq. cbn [repr] in Heq.
      rewrite <- app_assoc in Heq. symmetry in Heq.
      exfalso. revert Heq. apply letters_no_keyword; try assumption.
      keyword_chars.
    + rewrite !repr_Not in Heq. cbn [app] in Heq.
      injection Heq as Heq. rewrite <- !app_assoc in Heq.
      destruct (IH o2 (rparen :: r1) (rparen :: r2)) as [-> Hr]; try assumption.
      * right. exists r1. right. reflexivity.
      * right. exists r2. right. reflexivity.
      * injection Hr as ->. split; reflexivity.
    + rewrite repr_Not, repr_And in Heq. discriminate.
    + rewrite repr_Not, repr_Implication in Heq. discriminate.
  - destruct e2 as [j|n2|o2|ds|a2 c2]; [discriminate| | | |].
    + apply isalpha_letters in H2 as [Hne2 Hn2].
      rewrite repr_And in Heq. cbn [repr] in Heq.
      rewrite <- app_assoc in Heq. symmetry in Heq.
      exfalso. revert Heq. apply letters_no_keyword; try assumption.
      keyword_chars.
    + rewrite repr_Not, repr_And in Heq. discriminate.
    + rewrite !repr_And in Heq. cbn [app] in Heq.
      injection Heq as Heq. rewrite <- !app_assoc in Heq.
      cbn [alphabetic] in H1, H2.
      assert (Htail : ∀ cs', Forall (λ c, ∀ e2 r1 r2,
                                alphabetic c = true → alphabetic e2 = true →
                                delimited r1 → delimited r2 →
                                repr c ++ r1 = repr e2 ++ r2 → c = e2 ∧ r1 = r2) cs' →
                 forallb alphabetic cs' = true →
                 ∀ ds', forallb alphabetic ds' = true →
                 concat (map (λ q, [44; 32]%N ++ q) (map repr cs')) ++ rparen :: r1
                 = concat (map (λ q, [44; 32]%N ++ q) (map repr ds')) ++ rparen :: r2 →
                 cs' = ds' ∧ r1 = r2).
      { clear. intros cs' IH. induction IH as [|c cs' Hc _ IHcs'];
          intros Hcs [|d ds'] Hds Heq.
        - injection Heq as ->. split; reflexivity.
        - discriminate.
        - discriminate.
        - simpl in Hcs, Hds.
          apply andb_prop in Hcs as [Hac Hcs]. apply andb_prop in Hds as [Had Hds].
          cbn [map concat app] in Heq. injection Heq as Heq.
          rewrite <- !app_assoc in Heq.
          destruct (Hc d _ _ Hac Had (join_tail_delimited _ _)
                      (join_tail_delimited _ _) Heq) as [-> Hrest].
          destruct (IHcs' Hcs ds' Hds Hrest) as [-> ->]. split; reflexivity. }
      destruct cs as [|c cs'], ds as [|d ds'].
      * injection Heq as ->. split; reflexivity.
      * exfalso. simpl in H2. apply andb_prop in H2 as [Had _].
        destruct (repr_head d Had) as (x & rest & Hd & _ & Hx).
        cbn [map join] in Heq. rewrite Hd in Heq.
        simpl in Heq. injection Heq as Hx' _. congruence.
      * exfalso. simpl in H1. apply andb_prop in H1 as [Hac _].
        destruct (repr_head c Hac) as (x & rest & Hc & _ & Hx).
        cbn [map join] in Heq. rewrite Hc in Heq.
        simpl in Heq. injection Heq as Hx' _. congruence.
      * simpl in H1, H2.
        apply andb_prop in H1 as [Hac Hcs]. apply andb_prop in H2 as [Had Hds].
        cbn [map join] in Heq. rewrite <- !app_assoc in Heq.
        apply Forall_cons_1 in IH as [Hc IH].
        destruct (Hc d _ _ Hac Had (join_tail_delimited _ _)
                    (join_tail_delimited _ _) Heq) as [-> Hrest].
        destruct (Htail cs' IH Hcs ds' Hds Hrest) as [-> ->].
        split; reflexivity.
    + rewrite repr_And, repr_Implication in Heq. discriminate.
  - destruct e2 as [j|n2|o2|ds|a2 c2]; [discriminate| | | |].
    + apply isalpha_letters in H2 as [Hne2 Hn2].
      rewrite repr_Implication in Heq. cbn [repr] in Heq.
      rewrite <- app_assoc in Heq. symmetry in Heq.
      exfalso. revert Heq. apply letters_no_keyword; try assumption.
      keyword_chars.
    + rewrite repr_Not, repr_Implication in Heq. discriminate.
    + rewrite repr_And, repr_Implication in Heq. discriminate.
    + rewrite !repr_Implication in Heq. cbn [app] in Heq.
      injection Heq as Heq. rewrite <- !app_assoc in Heq.
      cbn [alphabetic] in H1, H2.
      apply andb_prop in H1 as [Ha1 Hc1]. apply andb_prop in H2 as [Ha2 Hc2].
      cbn [app] in Heq.
      assert (Hcomma : ∀ r, delimited (44%N :: r)).
      { intros r. right. exists r. left. reflexivity. }
      destruct (IHa a2 _ _ Ha1 Ha2 (Hcomma _) (Hcomma _) Heq) as [-> Hrest].
      injection Hrest as Hrest. rewrite <- !app_assoc in Hrest.
      destruct (IHc c2 (rparen :: r1) (rparen :: r2) Hc1 Hc2) as [-> Hr];
        try assumption.
      * right. exists r1. right. reflexivity.
      * right. exists r2. right. reflexivity.
      * injection Hr as ->. split; reflexivity.
Qed.

(** X23.  With alphabetic variable names, [repr] determines the
    expression: two expressions of the four variants with the same [repr]
    are the same expression.  (The parentheses and the comma are not
    letters.) *)
Theorem repr_injective (e1 e2 : Sentence) :
  alphabetic e1 = true → alphabetic e2 = true →
  repr e1 = repr e2 → e1 = e2 ∧ Sentence_eq e1 e2 = true.
Proof.
  intros H1 H2 Heq.
  destruct (repr_unique e1 e2 [] [] H1 H2) as [-> _].
  - left. reflexivity.
  - left. reflexivity.
  - rewrite !app_nil_r. exact Heq.
  - split; [reflexivity | apply Sentence_eq_true_iff; reflexivity].
Qed.
End Repr.

Lemma repr_injective_witness :
  And [Symbol (pystr "A"); Not (Symbol (pystr "B"))]
  = And [Symbol (pystr "A"); Not (Symbol (pystr "B"))]
  ∧ Sentence_eq (And [Symbol (pystr "A"); Not (Symbol (pystr "B"))])
                (And [Symbol (pystr "A"); Not (Symbol (pystr "B"))]) = true.
Proof.
  apply (@repr_injective latin1_letter sample_object_repr);
    reflexivity.
Defined.

(** A name with parentheses can imitate a connective, and the default
    [repr] of a direct instance shows the identity. *)
Example repr_examples :
  @repr sample_object_repr
    (Implication (And [Symbol (pystr "A"); Symbol (pystr "B")])
                 (Not (Symbol (pystr "C"))))
  = pystr "Implication(And(A, B), Not(C))"
  ∧ @repr sample_object_repr (And []) = pystr "And()"
  ∧ @repr sample_object_repr (Symbol (pystr "Not(A)"))
    = @repr sample_object_repr (Not (Symbol (pystr "A")))
  ∧ @repr sample_object_repr (BaseSentence 255)
    = pystr "<__main__.Sentence object at 0xff>".
Proof. repeat split. Qed.

(** ** Labels are reported once *)

Lemma NoDup_map_filter {A B} (f : A → B) (p : A → bool) (l : list A) :
  NoDup (map f l) → NoDup (map f (List.filter p l)).
Proof.
  induction l as [|x l IH]; simpl; [exact id|].
  intros [Hx Hl]%NoDup_cons. destruct (p x); simpl; [|apply IH, Hl].
  apply NoDup_cons. split; [|apply IH, Hl].
  intros Hin. apply Hx.
  apply list_elem_of_In, in_map_iff in Hin as (y & Hy & Hin).
  apply filter_In in Hin as [Hin _].
  apply list_elem_of_In, in_map_iff. exists y. split; assumption.
Qed.

Lemma catalogue_labels_NoDup : NoDup (map snd (rules TrafficRules_init)).
Proof. apply (bool_decide_unpack _). vm_compute. exact I. Qed.

(** X24.  When the labels of a catalogue are pairwise distinct, no label
    is reported twice, and every reported label belongs to a rule of the
    catalogue whose expression evaluates to true; the labels of the
    built-in catalogue are distinct. *)
Theorem check_violations_NoDup (self : TrafficRules) (scenario : gmap str pyval) :
  NoDup (map snd (rules self)) →
  ∃ violations,
    check_violations self scenario = Ok violations
    ∧ NoDup violations
    ∧ ∀ msg, msg ∈ violations
             ↔ ∃ rule, (rule, msg) ∈ rules self
                       ∧ evaluate rule (build_model scenario) = Ok true.
Proof.
  intros Hnd. eexists. split; [apply check_rules_spec|]. split.
  - simpl. apply NoDup_map_filter, Hnd.
  - intros msg. simpl. rewrite list_elem_of_In, in_map_iff. split.
    + intros ([rule msg'] & <- & Hin). apply filter_In in Hin as [Hin Hf].
      exists rule. split; [apply list_elem_of_In, Hin|].
      apply fires_true_iff in Hf. exact Hf.
    + intros (rule & Hin & Ht). exists (rule, msg). split; [reflexivity|].
      apply filter_In. split; [apply list_elem_of_In, Hin|].
      apply fires_true_iff. exact Ht.
Qed.

Lemma check_violations_NoDup_witness :
  ∃ violations,
    check_violations TrafficRules_init illegal_parking_and_stop_sign
    = Ok violations
    ∧ NoDup violations
    ∧ ∀ msg, msg ∈ violations
             ↔ ∃ rule, (rule, msg) ∈ rules TrafficRules_init
                       ∧ evaluate rule (build_model illegal_parking_and_stop_sign)
                         = Ok true.
Proof.
  apply check_violations_NoDup. exact catalogue_labels_NoDup.
Defined.
